(** * Verification of the libev reactor stubs of Lwt ([src/unix/lwt_libev_stubs.c])

    The C file is a thin layer between three parties: the OCaml runtime
    (blocking sections, global roots, custom blocks, callbacks), libev (the
    multiplexer) and the C heap.  The stubs themselves are straight-line code
    over two file-local statics, [lwt_unix_main_loop] and
    [lwt_unix_in_blocking_section].

    The development is a shallow embedding: every stub is a computation in a
    small monad [M] that threads the whole program state, records every call
    the stub makes to its environment in a trace, and distinguishes normal
    return, a raised OCaml exception and undefined behaviour of the C code. *)

From Stdlib Require Import ZArith String.
From stdpp Require Import base option list gmap sets.

Local Open Scope Z_scope.

(** ** Constants of [ev.h] used by the stubs *)

Module Ev.
(** Event masks of an [ev_io] watcher. *)
Definition EV_READ : Z := 1.
Definition EV_WRITE : Z := 2.
(** Flags of [ev_loop]. *)
Definition EVLOOP_NONBLOCK : Z := 1.
Definition EVLOOP_ONESHOT : Z := 2.
(** Modes of [ev_unloop]. *)
Definition EVUNLOOP_CANCEL : Z := 0.
Definition EVUNLOOP_ONE : Z := 1.
Definition EVUNLOOP_ALL : Z := 2.
(** Flag of [ev_default_loop]. *)
Definition EVFLAG_FORKCHECK : Z := 33554432.
End Ev.
Export Ev.

(** ** Data model *)

(** Non-null C pointers to watcher structures, non-null [struct ev_loop*]
    pointers and OCaml heap blocks are positive numbers; a nullable pointer is
    an [option].  OCaml closures are named by a number. *)
Abbreviation addr := positive (only parsing).
Abbreviation loop_ptr := positive (only parsing).
Abbreviation block := positive (only parsing).
Abbreviation closure := N (only parsing).

(** An [ev_tstamp] / OCaml float is a C [double]; it is kept as its IEEE-754
    binary64 bit pattern.  The stubs never compute on it. *)
Abbreviation double := Z (only parsing).

(** The integer literal [0] converted to [double] is [+0.0], whose bit
    pattern is all zeros. *)
Definition double_zero : double := 0.

(** C truth value of a double: everything but [+0.0] and [-0.0]. *)
Definition double_is_zero (d : double) : bool :=
  (d =? 0) || (d =? 2 ^ 63).

(** The three [static void handle_*] functions, as function pointers stored in
    a watcher by [ev_*_init]. *)
Inductive trampoline := Handle_io | Handle_signal | Handle_timer.

(** The kind-specific part of [struct ev_io], [struct ev_signal] and
    [struct ev_timer]. *)
Inductive ev_struct :=
| Ev_io (fd : Z) (events : Z)
| Ev_signal (signum : Z)
| Ev_timer (after : double) (repeat : double).

(** A malloc'ed watcher structure.  [w_init] is [None] until one of the
    [ev_*_init] macros has run on it; [w_data] is the [void *data] slot,
    [None] while it holds what [malloc] left there. *)
Record ev_watcher := {
  w_init : option (trampoline * ev_struct);
  w_data : option closure
}.

(** The two file-local functions that are stored in [watcher_ops]. *)
Inductive c_function := Compare_watchers | Hash_watcher.

(** [struct custom_operations]; a [NULL] member ([custom_*_default]) is
    [None]. *)
Record custom_operations := {
  identifier : string;
  finalize : option c_function;
  compare : option c_function;
  hash : option c_function;
  serialize : option c_function;
  deserialize : option c_function
}.

(** A custom block of the OCaml heap: its operations and its one data word
    ([None] until it is written). *)
Record custom_block := {
  cb_ops : custom_operations;
  cb_val : option addr
}.

(** The whole state the stubs can observe or change. *)
Record state := {
  (** [static struct ev_loop *lwt_unix_main_loop] *)
  lwt_unix_main_loop : option loop_ptr;
  (** [static int lwt_unix_in_blocking_section] *)
  lwt_unix_in_blocking_section : Z;
  (** the C heap: the live watcher structures *)
  c_heap : gmap addr ev_watcher;
  (** OCaml runtime: inside a blocking section (master lock released)? *)
  caml_blocking : bool;
  (** OCaml runtime: registered generational global roots; the root
      [&(watcher->data)] is named by the address of [watcher] *)
  caml_roots : gset addr;
  (** OCaml runtime: the live custom blocks *)
  caml_heap : gmap block custom_block;
  (** libev: the started watchers of the loop *)
  ev_active : gset addr;
  (** libev: watchers with an event queued but not yet delivered *)
  ev_pending : gset addr;
  (** libev: the [loop_done] member of the loop *)
  ev_loop_done : Z;
  (** operating system: the results of the coming attempts to create the
      default loop *)
  os_loops : list (option loop_ptr);
  (** operating system: the watchers found ready by the coming polls *)
  os_ready : list (list addr)
}.

Definition set_main_loop (v : option loop_ptr) (s : state) : state :=
  {| lwt_unix_main_loop := v;
     lwt_unix_in_blocking_section := lwt_unix_in_blocking_section s;
     c_heap := c_heap s; caml_blocking := caml_blocking s;
     caml_roots := caml_roots s; caml_heap := caml_heap s;
     ev_active := ev_active s; ev_pending := ev_pending s;
     ev_loop_done := ev_loop_done s;
     os_loops := os_loops s; os_ready := os_ready s |}.

Definition set_in_blocking_section (v : Z) (s : state) : state :=
  {| lwt_unix_main_loop := lwt_unix_main_loop s;
     lwt_unix_in_blocking_section := v;
     c_heap := c_heap s; caml_blocking := caml_blocking s;
     caml_roots := caml_roots s; caml_heap := caml_heap s;
     ev_active := ev_active s; ev_pending := ev_pending s;
     ev_loop_done := ev_loop_done s;
     os_loops := os_loops s; os_ready := os_ready s |}.

Definition set_c_heap (v : gmap addr ev_watcher) (s : state) : state :=
  {| lwt_unix_main_loop := lwt_unix_main_loop s;
     lwt_unix_in_blocking_section := lwt_unix_in_blocking_section s;
     c_heap := v; caml_blocking := caml_blocking s;
     caml_roots := caml_roots s; caml_heap := caml_heap s;
     ev_active := ev_active s; ev_pending := ev_pending s;
     ev_loop_done := ev_loop_done s;
     os_loops := os_loops s; os_ready := os_ready s |}.

Definition set_caml_blocking (v : bool) (s : state) : state :=
  {| lwt_unix_main_loop := lwt_unix_main_loop s;
     lwt_unix_in_blocking_section := lwt_unix_in_blocking_section s;
     c_heap := c_heap s; caml_blocking := v;
     caml_roots := caml_roots s; caml_heap := caml_heap s;
     ev_active := ev_active s; ev_pending := ev_pending s;
     ev_loop_done := ev_loop_done s;
     os_loops := os_loops s; os_ready := os_ready s |}.

Definition set_caml_roots (v : gset addr) (s : state) : state :=
  {| lwt_unix_main_loop := lwt_unix_main_loop s;
     lwt_unix_in_blocking_section := lwt_unix_in_blocking_section s;
     c_heap := c_heap s; caml_blocking := caml_blocking s;
     caml_roots := v; caml_heap := caml_heap s;
     ev_active := ev_active s; ev_pending := ev_pending s;
     ev_loop_done := ev_loop_done s;
     os_loops := os_loops s; os_ready := os_ready s |}.

Definition set_caml_heap (v : gmap block custom_block) (s : state) : state :=
  {| lwt_unix_main_loop := lwt_unix_main_loop s;
     lwt_unix_in_blocking_section := lwt_unix_in_blocking_section s;
     c_heap := c_heap s; caml_blocking := caml_blocking s;
     caml_roots := caml_roots s; caml_heap := v;
     ev_active := ev_active s; ev_pending := ev_pending s;
     ev_loop_done := ev_loop_done s;
     os_loops := os_loops s; os_ready := os_ready s |}.

Definition set_ev_active (v : gset addr) (s : state) : state :=
  {| lwt_unix_main_loop := lwt_unix_main_loop s;
     lwt_unix_in_blocking_section := lwt_unix_in_blocking_section s;
     c_heap := c_heap s; caml_blocking := caml_blocking s;
     caml_roots := caml_roots s; caml_heap := caml_heap s;
     ev_active := v; ev_pending := ev_pending s;
     ev_loop_done := ev_loop_done s;
     os_loops := os_loops s; os_ready := os_ready s |}.

Definition set_ev_pending (v : gset addr) (s : state) : state :=
  {| lwt_unix_main_loop := lwt_unix_main_loop s;
     lwt_unix_in_blocking_section := lwt_unix_in_blocking_section s;
     c_heap := c_heap s; caml_blocking := caml_blocking s;
     caml_roots := caml_roots s; caml_heap := caml_heap s;
     ev_active := ev_active s; ev_pending := v;
     ev_loop_done := ev_loop_done s;
     os_loops := os_loops s; os_ready := os_ready s |}.

Definition set_ev_loop_done (v : Z) (s : state) : state :=
  {| lwt_unix_main_loop := lwt_unix_main_loop s;
     lwt_unix_in_blocking_section := lwt_unix_in_blocking_section s;
     c_heap := c_heap s; caml_blocking := caml_blocking s;
     caml_roots := caml_roots s; caml_heap := caml_heap s;
     ev_active := ev_active s; ev_pending := ev_pending s;
     ev_loop_done := v;
     os_loops := os_loops s; os_ready := os_ready s |}.

Definition set_os_loops (v : list (option loop_ptr)) (s : state) : state :=
  {| lwt_unix_main_loop := lwt_unix_main_loop s;
     lwt_unix_in_blocking_section := lwt_unix_in_blocking_section s;
     c_heap := c_heap s; caml_blocking := caml_blocking s;
     caml_roots := caml_roots s; caml_heap := caml_heap s;
     ev_active := ev_active s; ev_pending := ev_pending s;
     ev_loop_done := ev_loop_done s;
     os_loops := v; os_ready := os_ready s |}.

Definition set_os_ready (v : list (list addr)) (s : state) : state :=
  {| lwt_unix_main_loop := lwt_unix_main_loop s;
     lwt_unix_in_blocking_section := lwt_unix_in_blocking_section s;
     c_heap := c_heap s; caml_blocking := caml_blocking s;
     caml_roots := caml_roots s; caml_heap := caml_heap s;
     ev_active := ev_active s; ev_pending := ev_pending s;
     ev_loop_done := ev_loop_done s;
     os_loops := os_loops s; os_ready := v |}.

(** The state of a freshly loaded program: both statics hold their C
    initialisers ([NULL] and [0]), nothing is allocated. *)
Definition initial_state (loops : list (option loop_ptr))
    (ready : list (list addr)) : state :=
  {| lwt_unix_main_loop := None;
     lwt_unix_in_blocking_section := 0;
     c_heap := ∅; caml_blocking := false;
     caml_roots := ∅; caml_heap := ∅;
     ev_active := ∅; ev_pending := ∅;
     ev_loop_done := EVUNLOOP_CANCEL;
     os_loops := loops; os_ready := ready |}.

(** ** Calls to the environment *)

(** Every step a stub takes outside its own statics: a call to libev, to the
    OCaml runtime or to the C allocator, or a store through a pointer.
    [Ev_invoke] is the one call in the other direction: libev calling the
    function pointer stored in a watcher. *)
Inductive extcall :=
| Ev_default_loop (flags : Z)
| Ev_loop_destroy (l : loop_ptr)
| Caml_failwith (msg : string)
| Caml_enter_blocking_section
| Caml_leave_blocking_section
| Ev_loop (l : option loop_ptr) (flags : Z)
| Ev_unloop (l : option loop_ptr) (how : Z)
| Ev_invoke (cb : trampoline) (w : addr)
| Caml_callback (f : closure)
| Lwt_unix_new (w : addr)
| Ev_io_init (w : addr) (cb : trampoline) (fd events : Z)
| Ev_signal_init (w : addr) (cb : trampoline) (signum : Z)
| Ev_timer_init (w : addr) (cb : trampoline) (after repeat : double)
| Caml_alloc_custom (ops : custom_operations) (mem max : Z) (b : block)
| Store_custom_val (b : block) (w : addr)
| Store_data (w : addr) (f : closure)
| Caml_register_generational_global_root (w : addr)
| Caml_remove_generational_global_root (w : addr)
| Ev_io_start (l : option loop_ptr) (w : addr)
| Ev_signal_start (l : option loop_ptr) (w : addr)
| Ev_timer_start (l : option loop_ptr) (w : addr)
| Ev_io_stop (l : option loop_ptr) (w : addr)
| Ev_signal_stop (l : option loop_ptr) (w : addr)
| Ev_timer_stop (l : option loop_ptr) (w : addr)
| Free (w : addr)
| Finalize (f : c_function) (b : block).

(** A trace entry: the call, and the value [lwt_unix_in_blocking_section] had
    when it was made. *)
Record event := {
  at_flag : Z;
  call : extcall
}.

(** OCaml exceptions the stubs raise. *)
Inductive exn := Failure (msg : string).

(** ** The monad of the stubs *)

Inductive outcome (A : Type) :=
| Ret (a : A) (s : state)       (* the C function returned [a] *)
| Raise (e : exn) (s : state)   (* an OCaml exception unwinds the C frames *)
| Undef                         (* undefined behaviour of the C code *)
| OutOfFuel.                    (* the model, not the program, stopped *)
Arguments Ret {A} a s.
Arguments Raise {A} e s.
Arguments Undef {A}.
Arguments OutOfFuel {A}.

Definition M (A : Type) : Type := state → list event * outcome A.

Definition ret {A} (a : A) : M A := λ s, ([], Ret a s).

Definition bind {A B} (m : M A) (k : A → M B) : M B := λ s,
  match m s with
  | (t, Ret a s') => let '(t', o) := k a s' in (t ++ t', o)
  | (t, Raise e s') => (t, Raise e s')
  | (t, Undef) => (t, Undef)
  | (t, OutOfFuel) => (t, OutOfFuel)
  end.

#[export] Instance M_ret : MRet M := @ret.
#[export] Instance M_bind : MBind M := λ A B k m, bind m k.

Definition get : M state := λ s, ([], Ret s s).
Definition modify (f : state → state) : M unit := λ s, ([], Ret tt (f s)).
Definition raise {A} (e : exn) : M A := λ s, ([], Raise e s).
Definition undef {A} : M A := λ _, ([], Undef).
Definition out_of_fuel {A} : M A := λ _, ([], OutOfFuel).

(** [try m with _ -> ()] of the OCaml caller. *)
Definition catch (m : M unit) : M unit := λ s,
  match m s with
  | (t, Raise _ s') => (t, Ret tt s')
  | r => r
  end.

Definition log (c : extcall) : M unit := λ s,
  ([ {| at_flag := lwt_unix_in_blocking_section s; call := c |} ], Ret tt s).

Definition trace {A} (r : list event * outcome A) : list event := r.1.
Definition result {A} (r : list event * outcome A) : outcome A := r.2.
Definition calls {A} (r : list event * outcome A) : list extcall :=
  call <$> r.1.

(** ** The environment of the stubs

    None of the functions below is defined in [lwt_libev_stubs.c]; they are
    what the file links against.  Each is given the behaviour its caller in
    the stubs relies on, and each logs its call. *)

(** *** C allocator *)

(** Modelled from the spec: [lwt_unix_new(type)] of [lwt_unix.h], the
    allocation of "the OS-level descriptor".  It returns a block that is not
    live, which may be one that [free] released before. *)
Definition lwt_unix_new : M addr :=
  s ← get;
  let w := fresh (dom (c_heap s)) in
  log (Lwt_unix_new w);;
  modify (set_c_heap (<[w := {| w_init := None; w_data := None |}]> (c_heap s)));;
  mret w.

(** [free] of a block that is not live is undefined. *)
Definition free (w : addr) : M unit :=
  log (Free w);;
  s ← get;
  match c_heap s !! w with
  | Some _ => modify (set_c_heap (delete w (c_heap s)))
  | None => undef
  end.

(** [watcher->data = (void* )callback] *)
Definition store_data (w : addr) (f : closure) : M unit :=
  log (Store_data w f);;
  s ← get;
  match c_heap s !! w with
  | Some x =>
      modify (set_c_heap
                (<[w := {| w_init := w_init x; w_data := Some f |}]> (c_heap s)))
  | None => undef
  end.

(** [(value)watcher->data] *)
Definition load_data (w : addr) : M closure :=
  s ← get;
  match c_heap s !! w with
  | Some {| w_data := Some f |} => mret f
  | _ => undef
  end.

(** *** OCaml runtime *)

(** Modelled from the spec: the "runtime-specific action [...] required to
    mark the thread as not touching managed memory", and the action that
    reverses it. *)
Definition caml_enter_blocking_section : M unit :=
  log Caml_enter_blocking_section;;
  modify (set_caml_blocking true).

Definition caml_leave_blocking_section : M unit :=
  log Caml_leave_blocking_section;;
  modify (set_caml_blocking false).

(** [caml_failwith(msg)] of the OCaml runtime raises the exception
    [Failure msg] in the OCaml caller of the stub; it does not return to the
    C code. *)
Definition caml_failwith {A} (msg : string) : M A :=
  log (Caml_failwith msg);;
  raise (Failure msg).

(** [caml_alloc_custom(ops, size, mem, max)]: a new custom block, its data
    word not yet written.  All blocks of this file hold one pointer. *)
Definition caml_alloc_custom (ops : custom_operations) (mem max : Z) : M block :=
  s ← get;
  let b := fresh (dom (caml_heap s)) in
  log (Caml_alloc_custom ops mem max b);;
  modify (set_caml_heap (<[b := {| cb_ops := ops; cb_val := None |}]> (caml_heap s)));;
  mret b.

(** [*(struct ev_x** )Data_custom_val(b) = w] *)
Definition custom_val_write (b : block) (w : addr) : M unit :=
  log (Store_custom_val b w);;
  s ← get;
  match caml_heap s !! b with
  | Some c =>
      modify (set_caml_heap
                (<[b := {| cb_ops := cb_ops c; cb_val := Some w |}]> (caml_heap s)))
  | None => undef
  end.

(** [*(struct ev_x** )Data_custom_val(b)] *)
Definition custom_val_read (b : block) : M addr :=
  s ← get;
  match caml_heap s !! b with
  | Some {| cb_val := Some w |} => mret w
  | _ => undef
  end.

(** Modelled from the spec: pinning, "artificially keeping a value reachable
    for a collector".  [caml_register_generational_global_root(&(w->data))]
    reads the slot, which must hold a value. *)
Definition caml_register_generational_global_root (w : addr) : M unit :=
  log (Caml_register_generational_global_root w);;
  s ← get;
  match c_heap s !! w with
  | Some {| w_data := Some _ |} => modify (set_caml_roots ({[w]} ∪ caml_roots s))
  | _ => undef
  end.

(** Modelled from the spec: unpinning.
    [caml_remove_generational_global_root(&(w->data))] reads the slot, which
    must be live memory. *)
Definition caml_remove_generational_global_root (w : addr) : M unit :=
  log (Caml_remove_generational_global_root w);;
  s ← get;
  match c_heap s !! w with
  | Some _ => modify (set_caml_roots (caml_roots s ∖ {[w]}))
  | None => undef
  end.

(** The collector of the OCaml runtime reclaiming the custom block [b] once
    the program holds no reference to it: the [finalize] member of its
    operations is called when it is not [NULL], then the block is gone.  (The
    two functions of this file that a [custom_operations] can name only
    compute on their arguments.) *)
Definition caml_gc_reclaim (b : block) : M unit :=
  s ← get;
  match caml_heap s !! b with
  | Some c =>
      match finalize (cb_ops c) with
      | Some f => log (Finalize f b)
      | None => mret tt
      end;;
      modify (set_caml_heap (delete b (caml_heap s)))
  | None => mret tt
  end.

(** *** libev *)

(** Modelled from the spec: creation of "the underlying multiplexer handle",
    which the operating system grants or refuses. *)
Definition ev_default_loop (flags : Z) : M (option loop_ptr) :=
  log (Ev_default_loop flags);;
  s ← get;
  match os_loops s with
  | r :: rest => modify (set_os_loops rest);; mret r
  | [] => mret None
  end.

(** Modelled from the spec: "release its underlying multiplexer".  The loop's
    tables of started and pending watchers go with it. *)
Definition ev_loop_destroy (l : loop_ptr) : M unit :=
  log (Ev_loop_destroy l);;
  modify (λ s, set_ev_pending ∅ (set_ev_active ∅ s)).

(** The [ev_*_init] macros write the callback and the kind-specific members
    of the structure; they leave [data] alone. *)
Definition ev_init (w : addr) (cb : trampoline) (st : ev_struct) : M unit :=
  s ← get;
  match c_heap s !! w with
  | Some x =>
      modify (set_c_heap
                (<[w := {| w_init := Some (cb, st); w_data := w_data x |}]> (c_heap s)))
  | None => undef
  end.

Definition ev_io_init (w : addr) (cb : trampoline) (fd events : Z) : M unit :=
  log (Ev_io_init w cb fd events);;
  ev_init w cb (Ev_io fd events).

Definition ev_signal_init (w : addr) (cb : trampoline) (signum : Z) : M unit :=
  log (Ev_signal_init w cb signum);;
  ev_init w cb (Ev_signal signum).

Definition ev_timer_init (w : addr) (cb : trampoline) (after repeat : double)
    : M unit :=
  log (Ev_timer_init w cb after repeat);;
  ev_init w cb (Ev_timer after repeat).

Definition is_io (st : ev_struct) : bool :=
  match st with Ev_io _ _ => true | _ => false end.
Definition is_signal (st : ev_struct) : bool :=
  match st with Ev_signal _ => true | _ => false end.
Definition is_timer (st : ev_struct) : bool :=
  match st with Ev_timer _ _ => true | _ => false end.

(** Modelled from the spec: "start the watch against the Loop".  The watcher
    must be an initialised structure of the right kind; starting a started
    watcher does nothing; anything else needs the loop. *)
Definition ev_start (kind : ev_struct → bool) (lo : option loop_ptr) (w : addr)
    : M unit :=
  s ← get;
  match c_heap s !! w with
  | Some {| w_init := Some (_, st) |} =>
      if kind st then
        if decide (w ∈ ev_active s) then mret tt
        else match lo with
             | Some _ => modify (set_ev_active ({[w]} ∪ ev_active s))
             | None => undef
             end
      else undef
  | _ => undef
  end.

Definition ev_io_start (lo : option loop_ptr) (w : addr) : M unit :=
  log (Ev_io_start lo w);; ev_start is_io lo w.
Definition ev_signal_start (lo : option loop_ptr) (w : addr) : M unit :=
  log (Ev_signal_start lo w);; ev_start is_signal lo w.
Definition ev_timer_start (lo : option loop_ptr) (w : addr) : M unit :=
  log (Ev_timer_start lo w);; ev_start is_timer lo w.

(** Modelled from the spec: "stop the watch against the Loop".  A queued
    event of the watcher is dropped with it; stopping a watcher that is
    neither started nor queued does nothing. *)
Definition ev_stop (kind : ev_struct → bool) (lo : option loop_ptr) (w : addr)
    : M unit :=
  s ← get;
  match c_heap s !! w with
  | Some {| w_init := Some (_, st) |} =>
      if kind st then
        if decide (w ∈ ev_active s ∨ w ∈ ev_pending s) then
          match lo with
          | Some _ =>
              modify (λ s, set_ev_pending (ev_pending s ∖ {[w]})
                             (set_ev_active (ev_active s ∖ {[w]}) s))
          | None => undef
          end
        else mret tt
      else undef
  | _ => undef
  end.

Definition ev_io_stop (lo : option loop_ptr) (w : addr) : M unit :=
  log (Ev_io_stop lo w);; ev_stop is_io lo w.
Definition ev_signal_stop (lo : option loop_ptr) (w : addr) : M unit :=
  log (Ev_signal_stop lo w);; ev_stop is_signal lo w.
Definition ev_timer_stop (lo : option loop_ptr) (w : addr) : M unit :=
  log (Ev_timer_stop lo w);; ev_stop is_timer lo w.

(** Modelled from the spec: the request that the running round "terminate at
    its next opportunity": the mode is stored in the loop. *)
Definition ev_unloop (lo : option loop_ptr) (how : Z) : M unit :=
  log (Ev_unloop lo how);;
  match lo with
  | Some _ => modify (set_ev_loop_done how)
  | None => undef
  end.

(** The operating system's answer to one poll. *)
Definition os_poll : M (list addr) :=
  s ← get;
  match os_ready s with
  | ws :: rest => modify (set_os_ready rest);; mret ws
  | [] => mret []
  end.

Section libev_round.

(** Calling the function pointer stored in a watcher. *)
Variable invoke : trampoline → addr → M unit.

(** One ready watcher is queued if it is started.  A timer without repeat
    is stopped by libev at that moment; a repeating timer, an fd watcher
    and a signal watcher stay started. *)
Definition ev_feed (w : addr) : M unit :=
  s ← get;
  if decide (w ∈ ev_active s) then
    match c_heap s !! w with
    | Some {| w_init := Some (_, st) |} =>
        match st with
        | Ev_timer _ repeat =>
            if double_is_zero repeat
            then modify (set_ev_active (ev_active s ∖ {[w]}))
            else mret tt
        | _ => mret tt
        end;;
        modify (λ s, set_ev_pending ({[w]} ∪ ev_pending s) s)
    | _ => undef
    end
  else mret tt.

Fixpoint ev_queue (ws : list addr) : M unit :=
  match ws with
  | [] => mret tt
  | w :: ws => ev_feed w;; ev_queue ws
  end.

(** The queued event of [w], unless a callback that ran before dropped it
    by stopping [w], is delivered to the watcher's callback. *)
Definition ev_deliver (w : addr) : M unit :=
  s ← get;
  if decide (w ∈ ev_pending s) then
    modify (set_ev_pending (ev_pending s ∖ {[w]}));;
    match c_heap s !! w with
    | Some {| w_init := Some (cb, _) |} => log (Ev_invoke cb w);; invoke cb w
    | _ => undef
    end
  else mret tt.

Fixpoint ev_invoke_pending (ws : list addr) : M unit :=
  match ws with
  | [] => mret tt
  | w :: ws => ev_deliver w;; ev_invoke_pending ws
  end.

(** Modelled from the spec: "the multiplexer for exactly one round": clear
    a stale break request, wait for the operating system ([EVLOOP_NONBLOCK]
    only asks it not to wait), queue the watchers that are ready and
    deliver their events.  Without [EVLOOP_ONESHOT] or [EVLOOP_NONBLOCK]
    libev goes on for further rounds, which is outside this model. *)
Definition ev_loop (lo : option loop_ptr) (flags : Z) : M unit :=
  log (Ev_loop lo flags);;
  match lo with
  | Some _ =>
      if Z.land flags (Z.lor EVLOOP_ONESHOT EVLOOP_NONBLOCK) =? 0
      then out_of_fuel
      else
        modify (set_ev_loop_done EVUNLOOP_CANCEL);;
        ready ← os_poll;
        ev_queue ready;;
        ev_invoke_pending ready;;
        s ← get;
        if ev_loop_done s =? EVUNLOOP_ONE
        then modify (set_ev_loop_done EVUNLOOP_CANCEL)
        else mret tt
  | None => undef
  end.

End libev_round.

(** ** The stubs of [lwt_libev_stubs.c] *)

Section stubs.

(** [caml_convert_signal_number] of the OCaml runtime. *)
Variable caml_convert_signal_number : Z → Z.

(** What applying an OCaml closure to [()] does. *)
Variable apply_closure : closure → M unit.

(** [caml_callback(f, Val_unit)] *)
Definition caml_callback (f : closure) : M unit :=
  log (Caml_callback f);;
  apply_closure f.

(** *** Initialisation *)

Definition lwt_libev_init : M unit :=
  s ← get;
  match lwt_unix_main_loop s with
  | None =>
      l ← ev_default_loop EVFLAG_FORKCHECK;
      modify (set_main_loop l);;
      s ← get;
      match lwt_unix_main_loop s with
      | None => caml_failwith "lwt_libev_init: could not initialise the default loop"
      | Some _ => mret tt
      end
  | Some _ => mret tt
  end;;
  mret tt.

Definition lwt_libev_stop : M unit :=
  s ← get;
  match lwt_unix_main_loop s with
  | Some l =>
      ev_loop_destroy l;;
      modify (set_main_loop None)
  | None => mret tt
  end;;
  mret tt.

(** *** Main loop *)

(** The macro [LWT_UNIX_CHECK]. *)
Definition LWT_UNIX_CHECK : M unit :=
  s ← get;
  if negb (lwt_unix_in_blocking_section s =? 0) then
    modify (set_in_blocking_section 0);;
    caml_leave_blocking_section
  else mret tt.

(** *** Watchers *)

Definition watcher_ops : custom_operations :=
  {| identifier := "lwt.libev.watcher";
     finalize := None;                  (* custom_finalize_default *)
     compare := Some Compare_watchers;
     hash := Some Hash_watcher;
     serialize := None;                 (* custom_serialize_default *)
     deserialize := None |}.            (* custom_deserialize_default *)

(** The macros [Ev_io_val], [Ev_signal_val] and [Ev_timer_val], read. *)
Definition Ev_io_val (v : block) : M addr := custom_val_read v.
Definition Ev_signal_val (v : block) : M addr := custom_val_read v.
Definition Ev_timer_val (v : block) : M addr := custom_val_read v.

(** *** IO watchers *)

Definition handle_io (watcher : addr) : M unit :=
  LWT_UNIX_CHECK;;
  data ← load_data watcher;
  caml_callback data.

Definition lwt_libev_io_init (fd : Z) (event : Z) (callback : closure)
    : M block :=
  (* Create and initialise the watcher *)
  watcher ← lwt_unix_new;
  ev_io_init watcher Handle_io fd event;;
  (* Wrap the watcher into a custom caml value *)
  result ← caml_alloc_custom watcher_ops 0 1;
  custom_val_write result watcher;;
  (* Store the callback in the watcher, and register it as a root *)
  store_data watcher callback;;
  caml_register_generational_global_root watcher;;
  (* Start the event *)
  s ← get;
  ev_io_start (lwt_unix_main_loop s) watcher;;
  mret result.

Definition lwt_libev_readable_init (fd : Z) (callback : closure) : M block :=
  lwt_libev_io_init fd EV_READ callback.

Definition lwt_libev_writable_init (fd : Z) (callback : closure) : M block :=
  lwt_libev_io_init fd EV_WRITE callback.

Definition lwt_libev_io_stop (val_watcher : block) : M unit :=
  watcher ← Ev_io_val val_watcher;
  caml_remove_generational_global_root watcher;;
  s ← get;
  ev_io_stop (lwt_unix_main_loop s) watcher;;
  free watcher;;
  mret tt.

(** *** Signal watchers *)

Definition handle_signal (watcher : addr) : M unit :=
  LWT_UNIX_CHECK;;
  data ← load_data watcher;
  caml_callback data.

Definition lwt_libev_signal_init (signum : Z) (callback : closure) : M block :=
  (* Create and initialise the watcher *)
  watcher ← lwt_unix_new;
  ev_signal_init watcher Handle_signal (caml_convert_signal_number signum);;
  (* Wrap the watcher into a custom caml value *)
  result ← caml_alloc_custom watcher_ops 0 1;
  custom_val_write result watcher;;
  (* Store the callback in the watcher, and register it as a root *)
  store_data watcher callback;;
  caml_register_generational_global_root watcher;;
  (* Start the event *)
  s ← get;
  ev_signal_start (lwt_unix_main_loop s) watcher;;
  mret result.

Definition lwt_libev_signal_stop (val_watcher : block) : M unit :=
  watcher ← Ev_signal_val val_watcher;
  caml_remove_generational_global_root watcher;;
  s ← get;
  ev_signal_stop (lwt_unix_main_loop s) watcher;;
  free watcher;;
  mret tt.

(** *** Timer watchers *)

Definition handle_timer (watcher : addr) : M unit :=
  LWT_UNIX_CHECK;;
  data ← load_data watcher;
  caml_callback data.

Definition lwt_libev_timer_init (delay : double) (callback : closure) : M block :=
  (* Create and initialise the watcher *)
  watcher ← lwt_unix_new;
  ev_timer_init watcher Handle_timer delay double_zero;;
  (* Wrap the watcher into a custom caml value *)
  result ← caml_alloc_custom watcher_ops 0 1;
  custom_val_write result watcher;;
  (* Store the callback in the watcher, and register it as a root *)
  store_data watcher callback;;
  caml_register_generational_global_root watcher;;
  (* Start the event *)
  s ← get;
  ev_timer_start (lwt_unix_main_loop s) watcher;;
  mret result.

Definition lwt_libev_timer_stop (val_watcher : block) : M unit :=
  watcher ← Ev_timer_val val_watcher;
  caml_remove_generational_global_root watcher;;
  s ← get;
  ev_timer_stop (lwt_unix_main_loop s) watcher;;
  free watcher;;
  mret tt.

(** *** Main loop, continued: the drive calls

    libev reaches the three handlers through the function pointer stored
    in each watcher. *)

Definition call_trampoline (cb : trampoline) (watcher : addr) : M unit :=
  match cb with
  | Handle_io => handle_io watcher
  | Handle_signal => handle_signal watcher
  | Handle_timer => handle_timer watcher
  end.

Definition lwt_libev_loop : M unit :=
  caml_enter_blocking_section;;
  modify (set_in_blocking_section 1);;
  s ← get;
  ev_loop call_trampoline (lwt_unix_main_loop s) EVLOOP_ONESHOT;;
  LWT_UNIX_CHECK;;
  mret tt.

Definition lwt_libev_loop_no_wait : M unit :=
  caml_enter_blocking_section;;
  modify (set_in_blocking_section 1);;
  s ← get;
  ev_loop call_trampoline (lwt_unix_main_loop s)
    (Z.lor EVLOOP_ONESHOT EVLOOP_NONBLOCK);;
  LWT_UNIX_CHECK;;
  mret tt.

Definition lwt_libev_unloop : M unit :=
  s ← get;
  ev_unloop (lwt_unix_main_loop s) EVUNLOOP_ONE;;
  mret tt.

End stubs.

(** ** The OCaml side

    The two statics are [static]: OCaml code reaches them only through the
    stubs.  A closure is therefore a sequence of stub calls; [code] gives the
    body of every closure of the program.  A handle returned by an init call
    is a block number, which later calls name; the collector may reclaim a
    custom block between any two calls. *)

Inductive ocaml_call :=
| Call_init
| Call_stop
| Call_loop
| Call_loop_no_wait
| Call_unloop
| Call_readable_init (fd : Z) (callback : closure)
| Call_writable_init (fd : Z) (callback : closure)
| Call_io_stop (h : block)
| Call_signal_init (signum : Z) (callback : closure)
| Call_signal_stop (h : block)
| Call_timer_init (delay : double) (callback : closure)
| Call_timer_stop (h : block)
| Call_try (c : ocaml_call)
| Gc_reclaim (h : block).

Section program.

Variable caml_convert_signal_number : Z → Z.
Variable code : closure → list ocaml_call.

Fixpoint run_calls (run : ocaml_call → M unit) (cs : list ocaml_call) : M unit :=
  match cs with
  | [] => mret tt
  | c :: cs => run c;; run_calls run cs
  end.

(** [exec n c]: the call [c], where closures may nest at most [n] calls
    deep. *)
Fixpoint exec (n : nat) (c : ocaml_call) {struct n} : M unit :=
  match n with
  | O => out_of_fuel
  | S n =>
      let apply_closure f := run_calls (exec n) (code f) in
      match c with
      | Call_init => lwt_libev_init
      | Call_stop => lwt_libev_stop
      | Call_loop => lwt_libev_loop apply_closure
      | Call_loop_no_wait => lwt_libev_loop_no_wait apply_closure
      | Call_unloop => lwt_libev_unloop
      | Call_readable_init fd f => lwt_libev_readable_init fd f;; mret tt
      | Call_writable_init fd f => lwt_libev_writable_init fd f;; mret tt
      | Call_io_stop h => lwt_libev_io_stop h
      | Call_signal_init n f =>
          lwt_libev_signal_init caml_convert_signal_number n f;; mret tt
      | Call_signal_stop h => lwt_libev_signal_stop h
      | Call_timer_init d f => lwt_libev_timer_init d f;; mret tt
      | Call_timer_stop h => lwt_libev_timer_stop h
      | Call_try c => catch (exec n c)
      | Gc_reclaim h => caml_gc_reclaim h
      end
  end.

Definition run (n : nat) (cs : list ocaml_call) : M unit :=
  run_calls (exec n) cs.

End program.

(** * Vocabulary of the properties *)

(** ** Loop lifecycle *)

Definition init_failure : string :=
  "lwt_libev_init: could not initialise the default loop".

(** Does the operating system refuse the next creation of the loop? *)
Definition creation_fails (s : state) : Prop :=
  mjoin (head (os_loops s)) = None.

(** The process ends there: the call neither returns nor hands an exception
    to its caller. *)
Definition process_fatal {A} (o : outcome A) : Prop :=
  match o with
  | Ret _ _ | Raise _ _ => False
  | Undef | OutOfFuel => True
  end.

(** ** The four kinds of watch *)

Inductive watch :=
| Readable (fd : Z)
| Writable (fd : Z)
| Signal (signum : Z)
| Timer (delay : double).

Section watches.

Variable caml_convert_signal_number : Z → Z.

Definition watch_init (k : watch) (callback : closure) : M block :=
  match k with
  | Readable fd => lwt_libev_readable_init fd callback
  | Writable fd => lwt_libev_writable_init fd callback
  | Signal n => lwt_libev_signal_init caml_convert_signal_number n callback
  | Timer d => lwt_libev_timer_init d callback
  end.

Definition watch_stop (k : watch) (h : block) : M unit :=
  match k with
  | Readable _ | Writable _ => lwt_libev_io_stop h
  | Signal _ => lwt_libev_signal_stop h
  | Timer _ => lwt_libev_timer_stop h
  end.

(** What the descriptor of a watch of kind [k] is initialised to. *)
Definition watch_trampoline (k : watch) : trampoline :=
  match k with
  | Readable _ | Writable _ => Handle_io
  | Signal _ => Handle_signal
  | Timer _ => Handle_timer
  end.

Definition watch_struct (k : watch) : ev_struct :=
  match k with
  | Readable fd => Ev_io fd EV_READ
  | Writable fd => Ev_io fd EV_WRITE
  | Signal n => Ev_signal (caml_convert_signal_number n)
  | Timer d => Ev_timer d double_zero
  end.

(** The calls to libev a watch of kind [k] is expected to make. *)
Definition init_call (k : watch) (w : addr) : extcall :=
  match k with
  | Readable fd => Ev_io_init w Handle_io fd EV_READ
  | Writable fd => Ev_io_init w Handle_io fd EV_WRITE
  | Signal n => Ev_signal_init w Handle_signal (caml_convert_signal_number n)
  | Timer d => Ev_timer_init w Handle_timer d double_zero
  end.

Definition start_call (k : watch) (l : option loop_ptr) (w : addr) : extcall :=
  match k with
  | Readable _ | Writable _ => Ev_io_start l w
  | Signal _ => Ev_signal_start l w
  | Timer _ => Ev_timer_start l w
  end.

Definition stop_call (k : watch) (l : option loop_ptr) (w : addr) : extcall :=
  match k with
  | Readable _ | Writable _ => Ev_io_stop l w
  | Signal _ => Ev_signal_stop l w
  | Timer _ => Ev_timer_stop l w
  end.

(** The watcher at [w] is live, holds the descriptor of a watch of kind [k]
    linked to [callback], is pinned and is started. *)
Definition watching (s : state) (w : addr) (k : watch) (callback : closure)
    : Prop :=
  c_heap s !! w
    = Some {| w_init := Some (watch_trampoline k, watch_struct k);
              w_data := Some callback |}
  ∧ w ∈ caml_roots s
  ∧ w ∈ ev_active s.

(** [h] is a handle of the watcher at [w]. *)
Definition handle_of (s : state) (h : block) (w : addr) : Prop :=
  caml_heap s !! h = Some {| cb_ops := watcher_ops; cb_val := Some w |}.

End watches.

(** ** The drive calls in the words of the spec *)

Inductive wait_mode := Wait_for_event | Return_immediately.

Definition round_flags (m : wait_mode) : Z :=
  match m with
  | Wait_for_event => EVLOOP_ONESHOT
  | Return_immediately => Z.lor EVLOOP_ONESHOT EVLOOP_NONBLOCK
  end.

Section drive.

Variable apply_closure : closure → M unit.

(** "flips the flag true and performs whatever runtime-specific action is
    required" *)
Definition enter : M unit :=
  caml_enter_blocking_section;;
  modify (set_in_blocking_section 1).

(** "if the flag is true, flip it false and reverse the enter action" *)
Definition check_and_leave : M unit :=
  s ← get;
  if decide (lwt_unix_in_blocking_section s = 0) then mret tt
  else modify (set_in_blocking_section 0);; caml_leave_blocking_section.

(** "transition into the Blocking-Section state, invoke the multiplexer for
    exactly one round [...], then transition out of the Blocking-Section
    state before returning" *)
Definition drive (m : wait_mode) : M unit :=
  enter;;
  s ← get;
  ev_loop (call_trampoline apply_closure) (lwt_unix_main_loop s) (round_flags m);;
  check_and_leave.

End drive.

(** ** Trace monitors and weakest preconditions

    A monitor reads a trace event by event and may reject it; [wp] says that
    the trace of a computation is accepted from the monitor's current state
    and that the final state satisfies a postcondition, one for a normal
    return and one for a raised exception. *)

Section logic.

Context {mon : Type}.
Variable step : mon → event → option mon.

Fixpoint accept (μ : mon) (t : list event) : option mon :=
  match t with
  | [] => Some μ
  | e :: t => match step μ e with
              | Some μ' => accept μ' t
              | None => None
              end
  end.

Definition wp {A} (m : M A) (Q : A → state → mon → Prop)
    (E : state → mon → Prop) (s : state) (μ : mon) : Prop :=
  ∃ μ', accept μ (trace (m s)) = Some μ'
        ∧ match result (m s) with
          | Ret a s' => Q a s' μ'
          | Raise _ s' => E s' μ'
          | Undef | OutOfFuel => True
          end.

End logic.

(** ** The flag at the calls that matter *)

(** The Blocking-Section flag is [1] when [ev_loop] is called and [0] when
    an OCaml closure is called. *)
Definition flag_ok (e : event) : bool :=
  match call e with
  | Ev_loop _ _ => at_flag e =? 1
  | Caml_callback _ => at_flag e =? 0
  | _ => true
  end.

Definition flag_monitor (_ : unit) (e : event) : option unit :=
  if flag_ok e then Some tt else None.

(** ** Timers *)

(** The monitor of the timer at [w]: a start arms it, a firing needs it armed
    and disarms it. *)
Definition timer_monitor (w : addr) (armed : bool) (e : event) : option bool :=
  match call e with
  | Ev_timer_start _ w' => if decide (w' = w) then Some true else Some armed
  | Ev_invoke Handle_timer w' =>
      if decide (w' = w) then (if armed then Some false else None)
      else Some armed
  | _ => Some armed
  end.

(** Every firing of the timer at [w] in [t] has a start of that timer before
    it that no earlier firing used. *)
Definition one_firing_per_start (w : addr) (t : list event) : Prop :=
  is_Some (accept (timer_monitor w) false t).

(** A call that arms a timer. *)
Definition arms_timer (e : event) : bool :=
  match call e with
  | Ev_timer_start _ _ | Ev_timer_init _ _ _ _ => true
  | _ => false
  end.

Definition arm_monitor (_ : unit) (e : event) : option unit :=
  if arms_timer e then None else Some tt.

(** OCaml code that never calls [watch_timer]. *)
Fixpoint no_timer_init (c : ocaml_call) : bool :=
  match c with
  | Call_timer_init _ _ => false
  | Call_try c => no_timer_init c
  | _ => true
  end.

(** ** Releasing a descriptor *)

(** A call that frees a descriptor or unpins its callback. *)
Definition releases (e : event) : bool :=
  match call e with
  | Free _ | Caml_remove_generational_global_root _ => true
  | _ => false
  end.

Definition release_monitor (_ : unit) (e : event) : option unit :=
  if releases e then None else Some tt.

(** OCaml code that never calls a watcher's [stop]. *)
Fixpoint stop_free (c : ocaml_call) : bool :=
  match c with
  | Call_io_stop _ | Call_signal_stop _ | Call_timer_stop _ => false
  | Call_try c => stop_free c
  | _ => true
  end.

(** A call that frees the descriptor at [w] or unpins its callback. *)
Definition releases_at (w : addr) (e : event) : bool :=
  match call e with
  | Free a | Caml_remove_generational_global_root a => bool_decide (a = w)
  | _ => false
  end.

Definition release_at_monitor (w : addr) (_ : unit) (e : event) : option unit :=
  if releases_at w e then None else Some tt.

(** OCaml code that calls a watcher's [stop] on the handles in [hs] only. *)
Fixpoint stops_only (hs : block → bool) (c : ocaml_call) : bool :=
  match c with
  | Call_io_stop h | Call_signal_stop h | Call_timer_stop h => hs h
  | Call_try c => stops_only hs c
  | _ => true
  end.

(** The block [h] holds a pointer to the descriptor at [w]: what the macros
    [Ev_io_val], [Ev_signal_val] and [Ev_timer_val] read in [h]. *)
Definition points_to (s : state) (h : block) (w : addr) : Prop :=
  ∃ c, caml_heap s !! h = Some c ∧ cb_val c = Some w.

(** The descriptor at [w] is live, its callback is pinned, and no block in
    [hs] points to it. *)
Definition out_of_reach (hs : block → bool) (w : addr) (s : state) (_ : unit)
    : Prop :=
  w ∈ dom (c_heap s) ∧ w ∈ caml_roots s
  ∧ ∀ h, points_to s h w → hs h = false.

(** ** The state after a registration and after its release *)

Definition blank_watcher : ev_watcher := {| w_init := None; w_data := None |}.

Section effects.

Variable caml_convert_signal_number : Z → Z.

(** The state [s] with one more watch of kind [k]: the descriptor at the
    fresh address, its handle at the fresh block, the pin and the started
    watch. *)
Definition after_init (k : watch) (callback : closure) (s : state) : state :=
  let w := fresh (dom (c_heap s)) in
  let h := fresh (dom (caml_heap s)) in
  set_ev_active ({[w]} ∪ ev_active s)
    (set_caml_roots ({[w]} ∪ caml_roots s)
       (set_c_heap
          (<[w := {| w_init := Some (watch_trampoline k,
                                     watch_struct caml_convert_signal_number k);
                     w_data := Some callback |}]> (c_heap s))
          (set_caml_heap
             (<[h := {| cb_ops := watcher_ops; cb_val := Some w |}]>
                (caml_heap s)) s))).

(** The state [s] without the watcher at [w]: no pin, no watch, no
    descriptor. *)
Definition after_stop (w : addr) (s : state) : state :=
  set_c_heap (delete w (c_heap s))
    (set_ev_pending (ev_pending s ∖ {[w]})
       (set_ev_active (ev_active s ∖ {[w]})
          (set_caml_roots (caml_roots s ∖ {[w]}) s))).

End effects.

(** A call as a trace entry of the state it is made in. *)
Definition at_state (s : state) (c : extcall) : event :=
  {| at_flag := lwt_unix_in_blocking_section s; call := c |}.

(** Is [st] the structure of a watch of the kind of [k]? *)
Definition same_kind (k : watch) (st : ev_struct) : bool :=
  match k with
  | Readable _ | Writable _ => is_io st
  | Signal _ => is_signal st
  | Timer _ => is_timer st
  end.

(** The watcher at [w] is live and holds an initialised descriptor of the
    kind of [k]: what the init stub of the kind leaves at [w] until the
    matching stop, whether the watch is still started or not (a timer that
    fired is not) and whether the callback is still pinned or not. *)
Definition registered (s : state) (w : addr) (k : watch) : Prop :=
  ∃ x cb st,
    c_heap s !! w = Some x ∧ w_init x = Some (cb, st) ∧ same_kind k st = true.

(** The flag is [0] in the state a computation ends in, whether it returns
    or raises. *)
Definition ends_clear {A} (o : outcome A) : Prop :=
  match o with
  | Ret _ s | Raise _ s => lwt_unix_in_blocking_section s = 0
  | Undef | OutOfFuel => True
  end.

Definition flag_clear (s : state) (_ : unit) : Prop :=
  lwt_unix_in_blocking_section s = 0.

(** The closures of the program [code], allowed to nest [n] calls deep. *)
Definition closures (conv : Z → Z) (code : closure → list ocaml_call) (n : nat)
    (f : closure) : M unit :=
  run_calls (exec conv code n) (code f).

(** The calls of a drive call itself, as opposed to those of the closures it
    runs and to libev's call of a trampoline. *)
Definition drive_call (c : extcall) : bool :=
  match c with
  | Caml_enter_blocking_section | Caml_leave_blocking_section
  | Ev_loop _ _ | Caml_callback _ => true
  | _ => false
  end.

(** Two states with the same watchers: descriptors, pins, started and queued
    watches. *)
Definition same_watchers (s s' : state) : Prop :=
  c_heap s' = c_heap s ∧ caml_roots s' = caml_roots s
  ∧ ev_active s' = ev_active s ∧ ev_pending s' = ev_pending s.

(** The descriptor at [w] is live and its callback pinned. *)
Definition pinned (w : addr) (s : state) (_ : unit) : Prop :=
  w ∈ dom (c_heap s) ∧ w ∈ caml_roots s.

Definition still_pinned {A} (w : addr) (o : outcome A) : Prop :=
  match o with
  | Ret _ s | Raise _ s => w ∈ dom (c_heap s) ∧ w ∈ caml_roots s
  | Undef | OutOfFuel => True
  end.

(** ** Well-formed watchers

    What every reachable state satisfies, as far as timers are concerned. *)

(** A trampoline goes with the structure of its own kind, and a timer has no
    repeat. *)
Definition good_init (i : trampoline * ev_struct) : Prop :=
  match i with
  | (Handle_io, Ev_io _ _) | (Handle_signal, Ev_signal _) => True
  | (Handle_timer, Ev_timer _ repeat) => double_is_zero repeat = true
  | _ => False
  end.

(** The descriptor at [a] is an initialised timer. *)
Definition timer_at (hp : gmap addr ev_watcher) (a : addr) : Prop :=
  ∃ x st, hp !! a = Some x ∧ w_init x = Some (Handle_timer, st).

Definition timer_wf (w : addr) (hp : gmap addr ev_watcher)
    (act pen : gset addr) (armed : bool) : Prop :=
  (** started and queued watchers are live *)
  (∀ a, a ∈ act ∨ a ∈ pen → a ∈ dom hp)
  (** initialised descriptors are well-formed *)
  ∧ (∀ a x i, hp !! a = Some x → w_init x = Some i → good_init i)
  (** a timer whose event is queued is no longer started *)
  ∧ (∀ a, a ∈ pen → timer_at hp a → a ∉ act)
  (** the timer at [w], while started or queued, is armed *)
  ∧ (w ∈ act ∨ w ∈ pen → timer_at hp w → armed = true).

Definition timer_inv (w : addr) (s : state) (armed : bool) : Prop :=
  timer_wf w (c_heap s) (ev_active s) (ev_pending s) armed.

(** libev calls the trampoline of the timer at [w]. *)
Definition fires_timer (w : addr) (e : event) : Prop :=
  call e = Ev_invoke Handle_timer w.

(** The timer at [w] is started. *)
Definition starts_timer (w : addr) (e : event) : Prop :=
  ∃ l, call e = Ev_timer_start l w.

(** A computation ends with the watchers of [s]. *)
Definition watchers_kept {A} (s : state) (o : outcome A) : Prop :=
  match o with
  | Ret _ s' | Raise _ s' => same_watchers s s'
  | Undef | OutOfFuel => True
  end.

(** * Properties *)

(** ** Running the monad *)

Ltac run_monad :=
  cbv [mbind mret M_bind M_ret bind ret get modify log raise undef
       out_of_fuel catch caml_failwith caml_enter_blocking_section
       caml_leave_blocking_section].

Lemma bind_eval {A B} (m : M A) (k : A → M B) (s : state) :
  (m ≫= k) s =
    match m s with
    | (t, Ret a s') => let '(t', o) := k a s' in (t ++ t', o)
    | (t, Raise e s') => (t, Raise e s')
    | (t, Undef) => (t, Undef)
    | (t, OutOfFuel) => (t, OutOfFuel)
    end.
Proof. reflexivity. Qed.

Ltac mrun :=
  repeat (rewrite ?bind_eval; cbv [get modify log mret M_ret ret undef raise];
          simpl).

Lemma set_main_loop_same (s : state) :
  set_main_loop (lwt_unix_main_loop s) s = s.
Proof. by destruct s. Qed.

(** ** Loop lifecycle *)

Lemma lwt_libev_init_initialised (s : state) :
  is_Some (lwt_unix_main_loop s) → lwt_libev_init s = ([], Ret tt s).
Proof.
  intros [l Hl]. unfold lwt_libev_init. run_monad. by rewrite Hl.
Qed.

Lemma lwt_libev_init_created (s : state) (l : loop_ptr) :
  lwt_unix_main_loop s = None →
  head (os_loops s) = Some (Some l) →
  lwt_libev_init s =
    ([ {| at_flag := lwt_unix_in_blocking_section s;
          call := Ev_default_loop EVFLAG_FORKCHECK |} ],
     Ret tt (set_main_loop (Some l) (set_os_loops (tail (os_loops s)) s))).
Proof.
  intros Hl Hos. unfold lwt_libev_init, ev_default_loop. run_monad.
  rewrite Hl. destruct (os_loops s) as [|r rest]; simplify_eq/=. done.
Qed.

Lemma lwt_libev_init_failed (s : state) :
  lwt_unix_main_loop s = None →
  creation_fails s →
  lwt_libev_init s =
    ([ {| at_flag := lwt_unix_in_blocking_section s;
          call := Ev_default_loop EVFLAG_FORKCHECK |};
       {| at_flag := lwt_unix_in_blocking_section s;
          call := Caml_failwith init_failure |} ],
     Raise (Failure init_failure) (set_os_loops (tail (os_loops s)) s)).
Proof.
  intros Hl Hos. unfold lwt_libev_init, ev_default_loop, creation_fails in *.
  run_monad. rewrite Hl.
  destruct s as [ml fl hp bl rt ch ac pe ld [|[l|] rest] rd];
    simplify_eq/=; done.
Qed.

Lemma lwt_libev_stop_uninitialised (s : state) :
  lwt_unix_main_loop s = None → lwt_libev_stop s = ([], Ret tt s).
Proof.
  intros Hl. unfold lwt_libev_stop. run_monad. by rewrite Hl.
Qed.

Lemma lwt_libev_stop_initialised (s : state) (l : loop_ptr) :
  lwt_unix_main_loop s = Some l →
  lwt_libev_stop s =
    ([ {| at_flag := lwt_unix_in_blocking_section s;
          call := Ev_loop_destroy l |} ],
     Ret tt (set_main_loop None (set_ev_pending ∅ (set_ev_active ∅ s)))).
Proof.
  intros Hl. unfold lwt_libev_stop, ev_loop_destroy. run_monad.
  by rewrite Hl.
Qed.

(** C4: [init()] on an initialised Loop and [stop()] on no Loop do nothing
    at all (no call is made, the state is untouched), and for every prior
    state of the singleton doing either operation twice in a row is the same
    as doing it once. *)
Theorem init_stop_idempotent (s : state) :
  (is_Some (lwt_unix_main_loop s) → lwt_libev_init s = ([], Ret tt s))
  ∧ (lwt_unix_main_loop s = None → lwt_libev_stop s = ([], Ret tt s))
  ∧ (lwt_libev_init;; lwt_libev_init) s = lwt_libev_init s
  ∧ (lwt_libev_stop;; lwt_libev_stop) s = lwt_libev_stop s.
Proof.
  split_and!.
  - apply lwt_libev_init_initialised.
  - apply lwt_libev_stop_uninitialised.
  - rewrite bind_eval.
    destruct (lwt_unix_main_loop s) as [l|] eqn:Hl.
    { rewrite !lwt_libev_init_initialised by eauto. done. }
    destruct (head (os_loops s)) as [[l|]|] eqn:Hos.
    + rewrite (lwt_libev_init_created s l) by done.
      rewrite lwt_libev_init_initialised by (simpl; eauto).
      by rewrite app_nil_r.
    + rewrite lwt_libev_init_failed; [done..|].
      unfold creation_fails. by rewrite Hos.
    + rewrite lwt_libev_init_failed; [done..|].
      unfold creation_fails. by rewrite Hos.
  - rewrite bind_eval.
    destruct (lwt_unix_main_loop s) as [l|] eqn:Hl.
    + rewrite (lwt_libev_stop_initialised s l) by done.
      rewrite lwt_libev_stop_uninitialised by done.
      by rewrite app_nil_r.
    + rewrite !lwt_libev_stop_uninitialised by done. done.
Qed.

Lemma init_stop_idempotent_witness :
  lwt_libev_init (set_main_loop (Some 1%positive) (initial_state [] []))
  = ([], Ret tt (set_main_loop (Some 1%positive) (initial_state [] [])))
  ∧ lwt_libev_stop (initial_state [] []) = ([], Ret tt (initial_state [] [])).
Proof.
  split.
  - apply (proj1 (init_stop_idempotent
                    (set_main_loop (Some 1%positive) (initial_state [] [])))).
    simpl. eauto.
  - apply (proj1 (proj2 (init_stop_idempotent (initial_state [] [])))).
    reflexivity.
Defined.

(** C3, as the code has it: when the creation of the loop fails, [init()]
    raises the OCaml exception [Failure] (after exactly two calls,
    [ev_default_loop] and [caml_failwith]); the Loop singleton is still null
    and the state is the one before the call but for the consumed answer of
    the operating system, so nothing is left registered. *)
Theorem init_failure_raises_and_registers_nothing (s : state) :
  lwt_unix_main_loop s = None →
  creation_fails s →
  lwt_libev_init s =
    ([ {| at_flag := lwt_unix_in_blocking_section s;
          call := Ev_default_loop EVFLAG_FORKCHECK |};
       {| at_flag := lwt_unix_in_blocking_section s;
          call := Caml_failwith init_failure |} ],
     Raise (Failure init_failure) (set_os_loops (tail (os_loops s)) s))
  ∧ lwt_unix_main_loop (set_os_loops (tail (os_loops s)) s) = None.
Proof.
  intros Hl Hos. split; [by apply lwt_libev_init_failed | done].
Qed.

Lemma init_failure_raises_and_registers_nothing_witness :
  lwt_libev_init (initial_state [None] [])
  = ([ {| at_flag := 0; call := Ev_default_loop EVFLAG_FORKCHECK |};
       {| at_flag := 0; call := Caml_failwith init_failure |} ],
     Raise (Failure init_failure) (initial_state [] []))
  ∧ lwt_unix_main_loop (initial_state [] []) = None.
Proof.
  apply (init_failure_raises_and_registers_nothing (initial_state [None] []));
    reflexivity.
Defined.

(** C3, as the spec has it, fails: the failure is an exception handed to the
    caller, not the end of the process.  Here the first creation of the loop
    is refused and the second one granted; the program catches the failure of
    the first [init()], calls [init()] again, and goes on with the Loop
    initialised. *)
Lemma init_failure_is_not_fatal :
  lwt_unix_main_loop (initial_state [None; Some 1%positive] []) = None
  ∧ creation_fails (initial_state [None; Some 1%positive] [])
  ∧ ¬ process_fatal
        (result (lwt_libev_init (initial_state [None; Some 1%positive] [])))
  ∧ lwt_libev_init (initial_state [None; Some 1%positive] [])
    = ([ {| at_flag := 0; call := Ev_default_loop EVFLAG_FORKCHECK |};
         {| at_flag := 0; call := Caml_failwith init_failure |} ],
       Raise (Failure init_failure) (initial_state [Some 1%positive] []))
  ∧ (catch lwt_libev_init;; lwt_libev_init)
      (initial_state [None; Some 1%positive] [])
    = ([ {| at_flag := 0; call := Ev_default_loop EVFLAG_FORKCHECK |};
         {| at_flag := 0; call := Caml_failwith init_failure |};
         {| at_flag := 0; call := Ev_default_loop EVFLAG_FORKCHECK |} ],
       Ret tt (set_main_loop (Some 1%positive) (initial_state [] []))).
Proof. split_and!; try reflexivity. intros []. Qed.

(** ** Blocking-section coordinator *)

Lemma LWT_UNIX_CHECK_eval (s : state) :
  LWT_UNIX_CHECK s =
    if decide (lwt_unix_in_blocking_section s = 0) then ([], Ret tt s)
    else ([ {| at_flag := 0; call := Caml_leave_blocking_section |} ],
          Ret tt (set_caml_blocking false (set_in_blocking_section 0 s))).
Proof.
  unfold LWT_UNIX_CHECK. run_monad. simpl.
  destruct (Z.eqb_spec (lwt_unix_in_blocking_section s) 0) as [Heq|Hne]; simpl.
  - by rewrite decide_True.
  - by rewrite decide_False.
Qed.

Lemma check_and_leave_eval (s : state) : check_and_leave s = LWT_UNIX_CHECK s.
Proof.
  rewrite LWT_UNIX_CHECK_eval. unfold check_and_leave. run_monad.
  by destruct (decide _).
Qed.

(** C7: from any value of the flag, [LWT_UNIX_CHECK] does nothing when the
    flag is [0]; otherwise it clears the flag and calls
    [caml_leave_blocking_section] once.  Running it twice in a row gives the
    same trace and the same state as running it once. *)
Theorem LWT_UNIX_CHECK_idempotent (s : state) :
  LWT_UNIX_CHECK s =
    (if decide (lwt_unix_in_blocking_section s = 0) then ([], Ret tt s)
     else ([ {| at_flag := 0; call := Caml_leave_blocking_section |} ],
           Ret tt (set_caml_blocking false (set_in_blocking_section 0 s))))
  ∧ (LWT_UNIX_CHECK;; LWT_UNIX_CHECK) s = LWT_UNIX_CHECK s.
Proof.
  split; [apply LWT_UNIX_CHECK_eval|].
  rewrite bind_eval, LWT_UNIX_CHECK_eval.
  destruct (decide _) as [Hz|Hnz].
  - rewrite LWT_UNIX_CHECK_eval. by rewrite decide_True.
  - rewrite LWT_UNIX_CHECK_eval. by rewrite decide_True.
Qed.

(** ** Loop driver *)

Lemma lwt_libev_loop_drive apply_closure (s : state) :
  lwt_libev_loop apply_closure s = drive apply_closure Wait_for_event s.
Proof.
  unfold lwt_libev_loop, drive, enter.
  run_monad. simpl.
  destruct (ev_loop _ _ _ _) as [t [[] s'| | |]]; [|done..].
  rewrite <- check_and_leave_eval.
  destruct (check_and_leave s') as [t' [[] s''| | |]];
    simpl; rewrite ?app_nil_r; done.
Qed.

Lemma lwt_libev_loop_no_wait_drive apply_closure (s : state) :
  lwt_libev_loop_no_wait apply_closure s
  = drive apply_closure Return_immediately s.
Proof.
  unfold lwt_libev_loop_no_wait, drive, enter.
  run_monad. simpl.
  destruct (ev_loop _ _ _ _) as [t [[] s'| | |]]; [|done..].
  rewrite <- check_and_leave_eval.
  destruct (check_and_leave s') as [t' [[] s''| | |]];
    simpl; rewrite ?app_nil_r; done.
Qed.

(** The round of the multiplexer does not look at [EVLOOP_NONBLOCK]; the
    flag only reaches the operating system. *)
Lemma ev_loop_flags invoke (lo : option loop_ptr) (s : state) :
  ∃ rest,
    ev_loop invoke lo EVLOOP_ONESHOT s
    = ({| at_flag := lwt_unix_in_blocking_section s;
          call := Ev_loop lo EVLOOP_ONESHOT |} :: rest.1, rest.2)
    ∧ ev_loop invoke lo (Z.lor EVLOOP_ONESHOT EVLOOP_NONBLOCK) s
      = ({| at_flag := lwt_unix_in_blocking_section s;
            call := Ev_loop lo (Z.lor EVLOOP_ONESHOT EVLOOP_NONBLOCK) |}
           :: rest.1, rest.2).
Proof.
  unfold ev_loop. rewrite !bind_eval. simpl.
  destruct lo as [l|].
  - change (Z.land EVLOOP_ONESHOT (Z.lor EVLOOP_ONESHOT EVLOOP_NONBLOCK) =? 0)
      with false.
    change (Z.land (Z.lor EVLOOP_ONESHOT EVLOOP_NONBLOCK)
              (Z.lor EVLOOP_ONESHOT EVLOOP_NONBLOCK) =? 0) with false.
    cbv iota.
    match goal with |- context [ (?m ≫= ?k) s ] =>
      exists ((m ≫= k) s); destruct ((m ≫= k) s) as [t o]
    end.
    done.
  - exists ([], Undef). done.
Qed.

(** C8: both drive calls are the drive of the spec, blocking or not: enter
    the blocking section, one round of the multiplexer, leave the blocking
    section.  Their traces differ in one place, the flags given to that
    round, which are [EVLOOP_ONESHOT] for the blocking call and
    [EVLOOP_ONESHOT | EVLOOP_NONBLOCK] for the other; every later call and the
    outcome are the same. *)
Theorem drive_nonblocking_same_steps apply_closure (s : state) :
  lwt_libev_loop apply_closure s = drive apply_closure Wait_for_event s
  ∧ lwt_libev_loop_no_wait apply_closure s
    = drive apply_closure Return_immediately s
  ∧ round_flags Return_immediately
    = Z.lor (round_flags Wait_for_event) EVLOOP_NONBLOCK
  ∧ Z.land (round_flags Wait_for_event) EVLOOP_NONBLOCK = 0
  ∧ ∃ rest,
      trace (lwt_libev_loop apply_closure s)
      = {| at_flag := lwt_unix_in_blocking_section s;
           call := Caml_enter_blocking_section |}
        :: {| at_flag := 1;
              call := Ev_loop (lwt_unix_main_loop s)
                        (round_flags Wait_for_event) |}
        :: rest
      ∧ trace (lwt_libev_loop_no_wait apply_closure s)
        = {| at_flag := lwt_unix_in_blocking_section s;
             call := Caml_enter_blocking_section |}
          :: {| at_flag := 1;
                call := Ev_loop (lwt_unix_main_loop s)
                          (round_flags Return_immediately) |}
          :: rest
      ∧ result (lwt_libev_loop apply_closure s)
        = result (lwt_libev_loop_no_wait apply_closure s).
Proof.
  split_and!; [apply lwt_libev_loop_drive | apply lwt_libev_loop_no_wait_drive
              | done | done |].
  unfold lwt_libev_loop, lwt_libev_loop_no_wait.
  unfold caml_enter_blocking_section.
  repeat (rewrite !bind_eval; cbv [get modify log]; simpl).
  destruct (ev_loop_flags (call_trampoline apply_closure)
              (lwt_unix_main_loop s)
              (set_in_blocking_section 1 (set_caml_blocking true s)))
    as ([t o] & -> & ->).
  simpl.
  destruct o as [[] s'| | |]; simpl; [|by eexists..].
  destruct ((LWT_UNIX_CHECK;; mret ()) s') as [t' o'].
  by eexists.
Qed.

(** C9: [break_current_round()] makes one call, [ev_unloop] on the Loop in
    the one-level mode [EVUNLOOP_ONE]; the only thing that changes is the
    break request stored in the loop, so the watchers, the Loop singleton and
    the flag are as before, and a later drive call, blocking or not, behaves
    as if the request had never been made. *)
Theorem unloop_breaks_current_round_only apply_closure (s : state)
    (l : loop_ptr) :
  lwt_unix_main_loop s = Some l →
  lwt_libev_unloop s
  = ([ {| at_flag := lwt_unix_in_blocking_section s;
          call := Ev_unloop (Some l) EVUNLOOP_ONE |} ],
     Ret tt (set_ev_loop_done EVUNLOOP_ONE s))
  ∧ same_watchers s (set_ev_loop_done EVUNLOOP_ONE s)
  ∧ lwt_unix_main_loop (set_ev_loop_done EVUNLOOP_ONE s) = lwt_unix_main_loop s
  ∧ lwt_unix_in_blocking_section (set_ev_loop_done EVUNLOOP_ONE s)
    = lwt_unix_in_blocking_section s
  ∧ lwt_libev_loop apply_closure (set_ev_loop_done EVUNLOOP_ONE s)
    = lwt_libev_loop apply_closure s
  ∧ lwt_libev_loop_no_wait apply_closure (set_ev_loop_done EVUNLOOP_ONE s)
    = lwt_libev_loop_no_wait apply_closure s.
Proof.
  intros Hl. split_and!; try done.
  - unfold lwt_libev_unloop, ev_unloop. mrun. rewrite Hl. done.
  - unfold lwt_libev_loop, ev_loop, caml_enter_blocking_section. mrun.
    rewrite Hl. mrun. done.
  - unfold lwt_libev_loop_no_wait, ev_loop, caml_enter_blocking_section. mrun.
    rewrite Hl. mrun. done.
Qed.

Lemma unloop_breaks_current_round_only_witness :
  lwt_libev_unloop (set_main_loop (Some 1%positive) (initial_state [] []))
  = ([ {| at_flag := 0; call := Ev_unloop (Some 1%positive) EVUNLOOP_ONE |} ],
     Ret tt (set_ev_loop_done EVUNLOOP_ONE
               (set_main_loop (Some 1%positive) (initial_state [] [])))).
Proof.
  apply (proj1 (unloop_breaks_current_round_only (λ _, mret tt)
                  (set_main_loop (Some 1%positive) (initial_state [] []))
                  1%positive eq_refl)).
Defined.

(** ** Watchers *)

Lemma union_singleton_elem (w : addr) (X : gset addr) :
  w ∈ X → {[w]} ∪ X = X.
Proof.
  intros Hw. apply set_eq. intros x.
  rewrite elem_of_union, elem_of_singleton. split; [|auto].
  by intros [->|Hx].
Qed.

Lemma difference_singleton_not_elem (w : addr) (X : gset addr) :
  w ∉ X → X ∖ {[w]} = X.
Proof.
  intros Hw. apply set_eq. intros x.
  rewrite elem_of_difference, elem_of_singleton. split; [tauto|].
  intros Hx. split; [done|]. by intros ->.
Qed.

Section watchers.

(** [caml_convert_signal_number] of the OCaml runtime. *)
Variable conv : Z → Z.


Lemma watch_init_eval (k : watch) (callback : closure) (s : state)
    (l : loop_ptr) :
  lwt_unix_main_loop s = Some l →
  let w := fresh (dom (c_heap s)) in
  let h := fresh (dom (caml_heap s)) in
  watch_init conv k callback s
  = (at_state s <$>
       [ Lwt_unix_new w; init_call conv k w;
         Caml_alloc_custom watcher_ops 0 1 h; Store_custom_val h w;
         Store_data w callback; Caml_register_generational_global_root w;
         start_call k (Some l) w ],
     Ret h (after_init conv k callback s)).
Proof.
  intros Hl w h.
  destruct k; unfold watch_init, watch_init, lwt_libev_readable_init,
    lwt_libev_writable_init, lwt_libev_io_init, lwt_libev_signal_init,
    lwt_libev_timer_init, lwt_unix_new, ev_io_init, ev_signal_init,
    ev_timer_init, ev_init, caml_alloc_custom, custom_val_write, store_data,
    caml_register_generational_global_root, ev_io_start, ev_signal_start,
    ev_timer_start, ev_start.
  all: repeat (mrun; first [rewrite lookup_insert_eq | rewrite Hl]).
  all: rewrite !insert_insert_eq.
  all: unfold after_init, after_init, at_state; fold w h.
  all: destruct (decide (w ∈ ev_active s)) as [Hin|Hout]; simpl; [|done].
  all: by rewrite (union_singleton_elem w (ev_active s)).
Qed.

Lemma watch_stop_eval (k : watch) (h : block) (w : addr) (x : ev_watcher)
    (cb : trampoline) (st : ev_struct) (ops : custom_operations)
    (s : state) (l : loop_ptr) :
  lwt_unix_main_loop s = Some l →
  caml_heap s !! h = Some {| cb_ops := ops; cb_val := Some w |} →
  c_heap s !! w = Some x →
  w_init x = Some (cb, st) →
  same_kind k st = true →
  watch_stop k h s
  = (at_state s <$>
       [ Caml_remove_generational_global_root w; stop_call k (Some l) w;
         Free w ],
     Ret tt (after_stop w s)).
Proof.
  intros Hl Hh Hw Hx Hk. destruct x as [ini dat]. simpl in Hx. subst ini.
  destruct k; unfold watch_stop, lwt_libev_io_stop, lwt_libev_signal_stop,
    lwt_libev_timer_stop, Ev_io_val, Ev_signal_val, Ev_timer_val,
    custom_val_read, caml_remove_generational_global_root, ev_io_stop,
    ev_signal_stop, ev_timer_stop, ev_stop, free.
  all: simpl in Hk.
  all: repeat (mrun; first [rewrite Hh | rewrite Hw | rewrite Hl | rewrite Hk]).
  all: unfold after_stop, at_state.
  all: destruct (decide (w ∈ ev_active s ∨ w ∈ ev_pending s)) as [Hin|Hout];
    mrun; rewrite ?Hw; [done|].
  all: rewrite (difference_singleton_not_elem w (ev_active s)) by tauto.
  all: rewrite (difference_singleton_not_elem w (ev_pending s)) by tauto.
  all: done.
Qed.

Lemma after_init_handle (k : watch) (callback : closure) (s : state) :
  handle_of (after_init conv k callback s) (fresh (dom (caml_heap s)))
    (fresh (dom (c_heap s))).
Proof. unfold handle_of. simpl. by rewrite lookup_insert_eq. Qed.

Lemma after_init_watching (k : watch) (callback : closure) (s : state) :
  watching conv (after_init conv k callback s) (fresh (dom (c_heap s))) k callback.
Proof.
  unfold watching, watching. simpl. rewrite lookup_insert_eq.
  split_and!; [done | | ]; apply elem_of_union_l, elem_of_singleton; done.
Qed.

Lemma same_kind_watch_struct (k : watch) : same_kind k (watch_struct conv k) = true.
Proof. by destruct k. Qed.

Lemma after_stop_gone (w : addr) (s : state) :
  c_heap (after_stop w s) !! w = None
  ∧ (w ∉ caml_roots (after_stop w s))
  ∧ (w ∉ ev_active (after_stop w s)).
Proof.
  simpl. rewrite lookup_delete_eq.
  split_and!; [done | |]; rewrite elem_of_difference, elem_of_singleton; tauto.
Qed.

Lemma after_init_registered (k : watch) (callback : closure) (s : state) :
  registered (after_init conv k callback s) (fresh (dom (c_heap s))) k.
Proof.
  eexists _, _, _. simpl. rewrite lookup_insert_eq.
  split_and!; [done..|]. apply same_kind_watch_struct.
Qed.

Lemma watching_registered (s : state) (w : addr) (k : watch)
    (callback : closure) :
  watching conv s w k callback → registered s w k.
Proof.
  intros [Hw _]. eexists _, _, _.
  split_and!; [exact Hw | done | apply same_kind_watch_struct].
Qed.

Lemma same_watchers_registered (s s' : state) (w : addr) (k : watch) :
  c_heap s' = c_heap s → registered s w k → registered s' w k.
Proof. unfold registered. by intros ->. Qed.

(** C2: every kind of watch is registered by the same seven steps, in this
    order: allocate the descriptor, initialise it with the parameters of
    the kind, allocate the handle and make it point to the descriptor,
    store the callback in the descriptor and pin it there, start the watch
    on the Loop; the handle is returned.  The matching stop takes three
    steps on the descriptor the handle points to: unpin, stop the watch on
    the Loop, free.  The stop asks for no more than the handle and the live
    descriptor of the kind: the watch need not be started any more, so the
    stop of a timer that has fired takes the same three steps. *)
Theorem watch_init_stop_steps (k : watch) (callback : closure)
    (s s' : state) (l l' : loop_ptr) (h' : block) (w' : addr) :
  lwt_unix_main_loop s = Some l →
  lwt_unix_main_loop s' = Some l' →
  handle_of s' h' w' →
  registered s' w' k →
  let w := fresh (dom (c_heap s)) in
  let h := fresh (dom (caml_heap s)) in
  (watch_init conv k callback s
   = (at_state s <$>
        [ Lwt_unix_new w; init_call conv k w;
          Caml_alloc_custom watcher_ops 0 1 h; Store_custom_val h w;
          Store_data w callback; Caml_register_generational_global_root w;
          start_call k (Some l) w ],
      Ret h (after_init conv k callback s))
   ∧ handle_of (after_init conv k callback s) h w
   ∧ watching conv (after_init conv k callback s) w k callback
   ∧ registered (after_init conv k callback s) w k)
  ∧ (watch_stop k h' s'
     = (at_state s' <$>
          [ Caml_remove_generational_global_root w';
            stop_call k (Some l') w'; Free w' ],
        Ret tt (after_stop w' s'))
     ∧ (c_heap (after_stop w' s') !! w' = None)
     ∧ (w' ∉ caml_roots (after_stop w' s'))
     ∧ (w' ∉ ev_active (after_stop w' s'))
     ∧ (w' ∉ ev_pending (after_stop w' s'))).
Proof.
  intros Hl Hl' Hh (x & cb & st & Hw & Hx & Hk) w h. split; split_and!.
  - by apply watch_init_eval.
  - apply after_init_handle.
  - apply after_init_watching.
  - apply after_init_registered.
  - by eapply watch_stop_eval.
  - apply after_stop_gone.
  - apply after_stop_gone.
  - apply after_stop_gone.
  - simpl. rewrite elem_of_difference, elem_of_singleton. tauto.
Qed.


(** *** Frame of a stop *)

Lemma after_stop_watching (w w' : addr) (k : watch) (callback : closure)
    (s : state) :
  w ≠ w' →
  watching conv s w' k callback → watching conv (after_stop w s) w' k callback.
Proof.
  intros Hne (Hw & Hr & Ha). unfold watching, watching. simpl.
  rewrite lookup_delete_ne by done.
  split_and!; [done | |];
    rewrite elem_of_difference, elem_of_singleton; split; congruence.
Qed.

Lemma after_stop_frame (w w' : addr) (s : state) :
  w ≠ w' →
  c_heap (after_stop w s) !! w' = c_heap s !! w'
  ∧ (w' ∈ caml_roots (after_stop w s) ↔ w' ∈ caml_roots s)
  ∧ (w' ∈ ev_active (after_stop w s) ↔ w' ∈ ev_active s)
  ∧ (w' ∈ ev_pending (after_stop w s) ↔ w' ∈ ev_pending s).
Proof.
  intros Hne. simpl. rewrite lookup_delete_ne by done.
  rewrite !elem_of_difference, !elem_of_singleton.
  split_and!; [done|..]; split; try tauto; intros; split; congruence.
Qed.

Lemma watching_read_write_distinct (s : state) (wr ww : addr) (fd fd' : Z)
    (cbr cbw : closure) :
  watching conv s wr (Readable fd) cbr → watching conv s ww (Writable fd') cbw →
  wr ≠ ww.
Proof. intros [Hr _] [Hw _] ->. rewrite Hr in Hw. discriminate. Qed.

(** C6: a readable and a writable watcher on one fd are two descriptors at
    two addresses, each with its own pin and its own started watch.
    Stopping the readable one frees its descriptor and leaves the writable
    one exactly as it was (descriptor, linked callback, pin, started watch,
    handle), and the other way round. *)
Theorem readable_writable_independent (fd : Z) (cbr cbw : closure)
    (s : state) (l : loop_ptr) (hr hw : block) (wr ww : addr) :
  lwt_unix_main_loop s = Some l →
  handle_of s hr wr → watching conv s wr (Readable fd) cbr →
  handle_of s hw ww → watching conv s ww (Writable fd) cbw →
  wr ≠ ww ∧ hr ≠ hw
  ∧ (lwt_libev_io_stop hr s
     = (at_state s <$>
          [ Caml_remove_generational_global_root wr;
            Ev_io_stop (Some l) wr; Free wr ],
        Ret tt (after_stop wr s))
     ∧ (c_heap (after_stop wr s) !! wr = None)
     ∧ (c_heap (after_stop wr s) !! ww = c_heap s !! ww)
     ∧ watching conv (after_stop wr s) ww (Writable fd) cbw
     ∧ handle_of (after_stop wr s) hw ww)
  ∧ (lwt_libev_io_stop hw s
     = (at_state s <$>
          [ Caml_remove_generational_global_root ww;
            Ev_io_stop (Some l) ww; Free ww ],
        Ret tt (after_stop ww s))
     ∧ (c_heap (after_stop ww s) !! ww = None)
     ∧ (c_heap (after_stop ww s) !! wr = c_heap s !! wr)
     ∧ watching conv (after_stop ww s) wr (Readable fd) cbr
     ∧ handle_of (after_stop ww s) hr wr).
Proof.
  intros Hl Hhr Hwr Hhw Hww.
  assert (wr ≠ ww) as Hne by eauto using watching_read_write_distinct.
  split_and!.
  - done.
  - intros ->. unfold handle_of in *. congruence.
  - eapply (watch_stop_eval (Readable fd)); eauto; [apply Hwr|done|done].
  - apply after_stop_gone.
  - by apply after_stop_frame.
  - by apply after_stop_watching.
  - done.
  - eapply (watch_stop_eval (Writable fd)); eauto; [apply Hww|done|done].
  - apply after_stop_gone.
  - by apply after_stop_frame.
  - by apply after_stop_watching.
  - done.
Qed.

Lemma after_init_keeps_watching (k k' : watch) (cb cb' : closure) (w : addr)
    (s : state) :
  watching conv s w k cb → watching conv (after_init conv k' cb' s) w k cb.
Proof.
  intros (Hw & Hr & Ha). unfold watching, watching. simpl.
  assert (w ≠ fresh (dom (c_heap s))) as Hne.
  { intros ->. eapply (is_fresh (dom (c_heap s))), elem_of_dom. eauto. }
  rewrite lookup_insert_ne by done.
  split_and!; [done | |]; by apply elem_of_union_r.
Qed.

Lemma after_init_keeps_handle (k' : watch) (cb' : closure) (h : block)
    (w : addr) (s : state) :
  handle_of s h w → handle_of (after_init conv k' cb' s) h w.
Proof.
  unfold handle_of. intros Hh. simpl.
  assert (h ≠ fresh (dom (caml_heap s))) as Hne.
  { intros ->. eapply (is_fresh (dom (caml_heap s))), elem_of_dom. eauto. }
  by rewrite lookup_insert_ne.
Qed.


End watchers.

Lemma watch_init_stop_steps_witness :
  let s := set_main_loop (Some 1%positive) (initial_state [] [[1%positive]]) in
  let s1 := after_init (λ n, n) (Timer 5) 7%N s in
  let s' := set_os_ready [] (set_ev_active ∅ s1) in
  watch_init (λ n, n) (Timer 5) 7%N s
  = (at_state s <$>
       [ Lwt_unix_new 1; init_call (λ n, n) (Timer 5) 1;
         Caml_alloc_custom watcher_ops 0 1 1; Store_custom_val 1 1;
         Store_data 1 7%N; Caml_register_generational_global_root 1;
         start_call (Timer 5) (Some 1%positive) 1 ],
     Ret 1%positive s1)
  ∧ lwt_libev_loop (λ _, mret tt) s1
    = ([ {| at_flag := 0; call := Caml_enter_blocking_section |};
         {| at_flag := 1; call := Ev_loop (Some 1%positive) EVLOOP_ONESHOT |};
         {| at_flag := 1; call := Ev_invoke Handle_timer 1 |};
         {| at_flag := 0; call := Caml_leave_blocking_section |};
         {| at_flag := 0; call := Caml_callback 7%N |} ],
       Ret tt s')
  ∧ (1%positive ∉ ev_active s')
  ∧ watch_stop (Timer 5) 1%positive s'
    = (at_state s' <$>
         [ Caml_remove_generational_global_root 1;
           stop_call (Timer 5) (Some 1%positive) 1; Free 1 ],
       Ret tt (after_stop 1%positive s')).
Proof.
  intros s s1 s'.
  pose proof (watch_init_stop_steps (λ n, n) (Timer 5) 7%N s s' 1%positive
                1%positive 1%positive 1%positive eq_refl eq_refl
                (after_init_handle (λ n, n) (Timer 5) 7%N s)
                (same_watchers_registered s1 s' 1%positive (Timer 5) eq_refl
                   (after_init_registered (λ n, n) (Timer 5) 7%N s))) as H.
  split; [exact (proj1 (proj1 H))|].
  split; [reflexivity|].
  split; [apply not_elem_of_empty|].
  exact (proj1 (proj2 H)).
Defined.

Lemma readable_writable_independent_witness :
  let s0 := set_main_loop (Some 1%positive) (initial_state [] []) in
  let s1 := after_init (λ n, n) (Readable 3) 10%N s0 in
  let s2 := after_init (λ n, n) (Writable 3) 11%N s1 in
  (lwt_libev_readable_init 3 10%N s0).2 = Ret 1%positive s1
  ∧ (lwt_libev_writable_init 3 11%N s1).2 = Ret 2%positive s2
  ∧ (lwt_libev_io_stop 1%positive s2).2 = Ret tt (after_stop 1%positive s2)
  ∧ watching (λ n, n) (after_stop 1%positive s2) 2%positive (Writable 3) 11%N
  ∧ (lwt_libev_io_stop 2%positive s2).2 = Ret tt (after_stop 2%positive s2)
  ∧ watching (λ n, n) (after_stop 2%positive s2) 1%positive (Readable 3) 10%N.
Proof.
  intros s0 s1 s2.
  pose proof (readable_writable_independent (λ n, n) 3 10%N 11%N s2 1%positive
                1%positive 2%positive 1%positive 2%positive eq_refl
                (after_init_keeps_handle (λ n, n) (Writable 3) 11%N _ _ s1
                   (after_init_handle (λ n, n) (Readable 3) 10%N s0))
                (after_init_keeps_watching (λ n, n) (Readable 3) (Writable 3) 10%N
                   11%N _ s1 (after_init_watching (λ n, n) (Readable 3) 10%N s0))
                (after_init_handle (λ n, n) (Writable 3) 11%N s1)
                (after_init_watching (λ n, n) (Writable 3) 11%N s1))
    as (_ & _ & (E1 & _ & _ & W1 & _) & (E2 & _ & _ & W2 & _)).
  split_and!.
  - exact (f_equal snd (watch_init_eval (λ n, n) (Readable 3) 10%N s0 1%positive eq_refl)).
  - exact (f_equal snd (watch_init_eval (λ n, n) (Writable 3) 11%N s1 1%positive eq_refl)).
  - exact (f_equal snd E1).
  - exact W1.
  - exact (f_equal snd E2).
  - exact W2.
Defined.

(** ** Rules of the weakest precondition *)

Section wp_rules.

Context {mon : Type}.
Variable step : mon → event → option mon.

Lemma accept_app (μ : mon) (t t' : list event) :
  accept step μ (t ++ t')
  = match accept step μ t with
    | Some μ' => accept step μ' t'
    | None => None
    end.
Proof.
  revert μ. induction t as [|e t IH]; intros μ; simpl; [done|].
  destruct (step μ e); [apply IH | done].
Qed.

Lemma wp_ret {A} (a : A) Q E s μ : Q a s μ → wp step (mret a) Q E s μ.
Proof. intros HQ. exists μ. done. Qed.

Lemma wp_bind {A B} (m : M A) (k : A → M B) Q E s μ :
  wp step m (λ a s' μ', wp step (k a) Q E s' μ') E s μ →
  wp step (m ≫= k) Q E s μ.
Proof.
  unfold wp, trace, result. rewrite bind_eval.
  destruct (m s) as [t [a s'| e s'| |]]; simpl.
  - intros (μ' & Ht & μ'' & Ht' & HQ).
    destruct (k a s') as [t' o]. simpl in *.
    exists μ''. rewrite accept_app, Ht. done.
  - done.
  - done.
  - done.
Qed.

Lemma wp_mono {A} (m : M A) (Q Q' : A → state → mon → Prop)
    (E E' : state → mon → Prop) s μ :
  wp step m Q E s μ →
  (∀ a s' μ', Q a s' μ' → Q' a s' μ') →
  (∀ s' μ', E s' μ' → E' s' μ') →
  wp step m Q' E' s μ.
Proof.
  intros (μ' & Ht & H) HQ HE. exists μ'. split; [done|].
  destruct (result (m s)); eauto.
Qed.

Lemma wp_seq {A B} (m : M A) (k : A → M B) (P : A → state → mon → Prop)
    Q E s μ :
  wp step m P E s μ →
  (∀ a s' μ', P a s' μ' → wp step (k a) Q E s' μ') →
  wp step (m ≫= k) Q E s μ.
Proof. intros Hm Hk. apply wp_bind. eapply wp_mono; eauto. Qed.

Lemma wp_use {A} (m : M A) (P Q : A → state → mon → Prop) E s μ :
  wp step m P E s μ →
  (∀ a s' μ', P a s' μ' → Q a s' μ') →
  wp step m Q E s μ.
Proof. intros Hm HQ. eapply wp_mono; eauto. Qed.

Lemma wp_get Q E s μ : Q s s μ → wp step get Q E s μ.
Proof. intros HQ. exists μ. done. Qed.

Lemma wp_modify f Q E s μ : Q tt (f s) μ → wp step (modify f) Q E s μ.
Proof. intros HQ. exists μ. done. Qed.

Lemma wp_log c Q E s μ μ' :
  step μ (at_state s c) = Some μ' → Q tt s μ' → wp step (log c) Q E s μ.
Proof.
  intros Hs HQ. exists μ'. unfold trace, log. simpl.
  unfold at_state in Hs. rewrite Hs. done.
Qed.

Lemma wp_undef {A} (Q : A → state → mon → Prop) E s μ : wp step undef Q E s μ.
Proof. exists μ. done. Qed.

Lemma wp_out_of_fuel {A} (Q : A → state → mon → Prop) E s μ :
  wp step out_of_fuel Q E s μ.
Proof. exists μ. done. Qed.

Lemma wp_raise {A} e (Q : A → state → mon → Prop) (E : state → mon → Prop) s μ :
  E s μ → wp step (raise e) Q E s μ.
Proof. intros HE. exists μ. done. Qed.

Lemma wp_catch (m : M unit) (Q : unit → state → mon → Prop) E s μ :
  wp step m Q (Q tt) s μ → wp step (catch m) Q E s μ.
Proof.
  unfold wp, trace, result, catch.
  destruct (m s) as [t [[] s'| e s'| |]]; simpl; done.
Qed.

(** A list of calls run one after the other keeps an invariant that each of
    them keeps. *)
Lemma wp_run_calls (run : ocaml_call → M unit) (I : state → mon → Prop)
    (cs : list ocaml_call) :
  (∀ c s μ, c ∈ cs → I s μ → wp step (run c) (λ _, I) I s μ) →
  ∀ s μ, I s μ → wp step (run_calls run cs) (λ _, I) I s μ.
Proof.
  induction cs as [|c cs IH]; intros Hrun s μ HI; simpl.
  - by apply wp_ret.
  - eapply wp_seq.
    + apply Hrun; [apply list_elem_of_here | done].
    + intros a s' μ' HI'. apply IH; [|done].
      intros c' s'' μ'' Hin. apply Hrun. by apply list_elem_of_further.
Qed.

End wp_rules.

Ltac wp_step :=
  lazymatch goal with
  | |- wp _ (mbind _ _) _ _ _ _ => apply wp_bind
  | |- wp _ (mret _) _ _ _ _ => apply wp_ret
  | |- wp _ get _ _ _ _ => apply wp_get
  | |- wp _ (modify _) _ _ _ _ => apply wp_modify
  | |- wp _ (log _) _ _ _ _ => eapply wp_log; [reflexivity|]
  | |- wp _ undef _ _ _ _ => apply wp_undef
  | |- wp _ out_of_fuel _ _ _ _ => apply wp_out_of_fuel
  | |- wp _ (raise _) _ _ _ _ => apply wp_raise
  | |- wp _ (match ?x with _ => _ end) _ _ _ _ => destruct x eqn:?
  | |- wp _ (match ?x with _ => _ end _) _ _ _ _ => destruct x eqn:?
  end; cbv beta.

Ltac wp_go := repeat wp_step.

(** ** The Blocking-Section flag around the wait and the callbacks *)

Lemma accept_flag_monitor (t : list event) (μ : unit) :
  is_Some (accept flag_monitor μ t) ↔ Forall (λ e, flag_ok e = true) t.
Proof.
  destruct μ. induction t as [|e t IH]; simpl.
  - split; [constructor | eauto].
  - unfold flag_monitor at 1. destruct (flag_ok e) eqn:He.
    + rewrite IH. split; [by constructor | by inversion 1].
    + split; [by intros [? ?] | inversion 1; congruence].
Qed.

Section flag_discipline.

Variable apply_closure : closure → M unit.

Hypothesis apply_closure_clear : ∀ f s μ,
  flag_clear s μ →
  wp flag_monitor (apply_closure f) (λ _, flag_clear) flag_clear s μ.

Lemma LWT_UNIX_CHECK_clear E s μ :
  wp flag_monitor LWT_UNIX_CHECK (λ _, flag_clear) E s μ.
Proof.
  unfold LWT_UNIX_CHECK, caml_leave_blocking_section, flag_clear.
  wp_go; [done|].
  by apply negb_false_iff, Z.eqb_eq in Heqb.
Qed.

Lemma call_trampoline_clear cb w s μ :
  wp flag_monitor (call_trampoline apply_closure cb w)
    (λ _, flag_clear) flag_clear s μ.
Proof.
  assert (wp flag_monitor
            (LWT_UNIX_CHECK;; data ← load_data w; caml_callback apply_closure data)
            (λ _, flag_clear) flag_clear s μ); [|by destruct cb].
  eapply wp_seq; [apply LWT_UNIX_CHECK_clear|].
  intros [] s' μ' Hs'. unfold load_data, caml_callback, flag_clear in *.
  wp_go.
  eapply wp_log; [unfold flag_monitor, flag_ok, at_state; simpl;
                  by rewrite Hs'|].
  by apply apply_closure_clear.
Qed.

Lemma ev_queue_flag ws E s μ :
  wp flag_monitor (ev_queue ws)
    (λ _ s' _, lwt_unix_in_blocking_section s'
               = lwt_unix_in_blocking_section s) E s μ.
Proof.
  revert s μ. induction ws as [|w ws IH]; intros s μ; simpl; [by wp_go|].
  eapply wp_seq with
    (P := λ _ s' _, lwt_unix_in_blocking_section s'
                    = lwt_unix_in_blocking_section s).
  - unfold ev_feed. wp_go; done.
  - intros [] s' μ' Hs'. eapply wp_mono; [apply IH| |done].
    intros; simpl in *; congruence.
Qed.

Lemma ev_deliver_clear w s μ :
  wp flag_monitor (ev_deliver (call_trampoline apply_closure) w)
    (λ _ _ _, True) flag_clear s μ.
Proof.
  unfold ev_deliver. wp_go; try done.
  eapply wp_mono; [apply call_trampoline_clear|done..].
Qed.

Lemma ev_invoke_pending_clear ws s μ :
  wp flag_monitor (ev_invoke_pending (call_trampoline apply_closure) ws)
    (λ _ _ _, True) flag_clear s μ.
Proof.
  revert s μ. induction ws as [|w ws IH]; intros s μ; simpl; [by wp_go|].
  eapply wp_seq; [apply ev_deliver_clear|]. intros [] s' μ' _. apply IH.
Qed.

Lemma ev_loop_clear lo flags s μ :
  lwt_unix_in_blocking_section s = 1 →
  wp flag_monitor (ev_loop (call_trampoline apply_closure) lo flags)
    (λ _ _ _, True) flag_clear s μ.
Proof.
  intros Hs. unfold ev_loop.
  apply wp_bind. eapply wp_log.
  { unfold flag_monitor, flag_ok, at_state. simpl. by rewrite Hs. }
  unfold os_poll. wp_go.
  all: eapply wp_use; [apply ev_queue_flag|]; intros [] s1 μ1 _; cbv beta.
  all: wp_go.
  all: eapply wp_use; [apply ev_invoke_pending_clear|]; intros [] s2 μ2 _.
  all: wp_go; done.
Qed.

Lemma lwt_libev_loop_clear s μ :
  wp flag_monitor (lwt_libev_loop apply_closure) (λ _, flag_clear) flag_clear
    s μ.
Proof.
  unfold lwt_libev_loop, caml_enter_blocking_section. wp_go.
  eapply wp_use; [by apply ev_loop_clear|]. intros [] s1 μ1 _. wp_go.
  eapply wp_use; [apply LWT_UNIX_CHECK_clear|]. intros [] s2 μ2 Hs2.
  by wp_go.
Qed.

Lemma lwt_libev_loop_no_wait_clear s μ :
  wp flag_monitor (lwt_libev_loop_no_wait apply_closure) (λ _, flag_clear)
    flag_clear s μ.
Proof.
  unfold lwt_libev_loop_no_wait, caml_enter_blocking_section. wp_go.
  eapply wp_use; [by apply ev_loop_clear|]. intros [] s1 μ1 _. wp_go.
  eapply wp_use; [apply LWT_UNIX_CHECK_clear|]. intros [] s2 μ2 Hs2.
  by wp_go.
Qed.

End flag_discipline.

Ltac unfold_stubs :=
  unfold lwt_libev_init, lwt_libev_stop, lwt_libev_unloop,
    lwt_libev_readable_init, lwt_libev_writable_init, lwt_libev_io_init,
    lwt_libev_io_stop, lwt_libev_signal_init, lwt_libev_signal_stop,
    lwt_libev_timer_init, lwt_libev_timer_stop, Ev_io_val, Ev_signal_val,
    Ev_timer_val, caml_gc_reclaim.

Ltac unfold_env :=
  unfold lwt_unix_new, free, store_data, load_data, caml_failwith,
    caml_alloc_custom, custom_val_write, custom_val_read,
    caml_register_generational_global_root,
    caml_remove_generational_global_root, ev_default_loop, ev_loop_destroy,
    ev_io_init, ev_signal_init, ev_timer_init, ev_init, ev_io_start,
    ev_signal_start, ev_timer_start, ev_start, ev_io_stop, ev_signal_stop,
    ev_timer_stop, ev_stop, ev_unloop.

Section flag_program.

Variable conv : Z → Z.
Variable code : closure → list ocaml_call.

Lemma exec_clear (n : nat) (c : ocaml_call) s μ :
  flag_clear s μ →
  wp flag_monitor (exec conv code n c) (λ _, flag_clear) flag_clear s μ.
Proof.
  revert c s μ. induction n as [|n IH]; intros c s μ Hs; simpl.
  { apply wp_out_of_fuel. }
  assert (∀ f s μ, flag_clear s μ →
            wp flag_monitor (run_calls (exec conv code n) (code f))
              (λ _, flag_clear) flag_clear s μ) as Hclosure.
  { intros f s' μ' Hs'. apply wp_run_calls; [|done]. intros; by apply IH. }
  unfold flag_clear in *.
  destruct c; unfold_stubs; unfold_env.
  all: try (wp_go; simpl; done).
  - by apply lwt_libev_loop_clear.
  - by apply lwt_libev_loop_no_wait_clear.
  - apply wp_catch. by apply IH.
Qed.

End flag_program.

Lemma wp_flag_monitor {A} (m : M A) (s : state) :
  wp flag_monitor m (λ _, flag_clear) flag_clear s tt →
  Forall (λ e, flag_ok e = true) (trace (m s)) ∧ ends_clear (result (m s)).
Proof.
  intros (μ' & Ht & Hr). split.
  - apply (accept_flag_monitor _ tt). eauto.
  - unfold ends_clear. by destruct (result (m s)).
Qed.

Lemma closures_clear conv code n f s μ :
  flag_clear s μ →
  wp flag_monitor (closures conv code n f) (λ _, flag_clear) flag_clear s μ.
Proof.
  intros Hs. apply wp_run_calls; [|done]. intros. by apply exec_clear.
Qed.

(** C1: in every drive call, blocking or not, whatever the closures of the
    program do (they may register and stop watchers and drive the loop
    themselves) and however many events the round delivers, the flag is [1]
    at every call of [ev_loop] and [0] at every call of an OCaml closure, and
    it is [0] when the drive call ends, by return or by exception.  The same
    holds of a trampoline on its own, from any state. *)
Theorem flag_around_wait_and_callbacks (conv : Z → Z)
    (code : closure → list ocaml_call) (n : nat) (s : state)
    (cb : trampoline) (w : addr) :
  (Forall (λ e, flag_ok e = true) (trace (exec conv code n Call_loop s))
   ∧ ends_clear (result (exec conv code n Call_loop s)))
  ∧ (Forall (λ e, flag_ok e = true)
       (trace (exec conv code n Call_loop_no_wait s))
     ∧ ends_clear (result (exec conv code n Call_loop_no_wait s)))
  ∧ (Forall (λ e, flag_ok e = true)
       (trace (call_trampoline (closures conv code n) cb w s))
     ∧ ends_clear (result (call_trampoline (closures conv code n) cb w s))).
Proof.
  split; [|split].
  - apply wp_flag_monitor. destruct n as [|n]; simpl.
    + apply wp_out_of_fuel.
    + apply lwt_libev_loop_clear. intros f. apply closures_clear.
  - apply wp_flag_monitor. destruct n as [|n]; simpl.
    + apply wp_out_of_fuel.
    + apply lwt_libev_loop_no_wait_clear. intros f. apply closures_clear.
  - apply wp_flag_monitor. apply call_trampoline_clear.
    intros f. apply closures_clear.
Qed.

(** A blocking round that delivers two events: the timer at [3] and the fd
    watcher at [1], whose closure stops the watcher itself. *)
Example drive_round :
  let code (f : closure) :=
    match f with 0%N => [Call_io_stop 1%positive] | _ => [] end in
  calls (run (λ n, n) code 2
           [Call_init; Call_readable_init 3 0%N; Call_timer_init 7 2%N;
            Call_loop]
           (initial_state [Some 9%positive] [[2; 1]%positive]))
  = [ Ev_default_loop EVFLAG_FORKCHECK;
      Lwt_unix_new 1; Ev_io_init 1 Handle_io 3 EV_READ;
      Caml_alloc_custom watcher_ops 0 1 1; Store_custom_val 1 1;
      Store_data 1 0%N; Caml_register_generational_global_root 1;
      Ev_io_start (Some 9%positive) 1;
      Lwt_unix_new 2; Ev_timer_init 2 Handle_timer 7 0;
      Caml_alloc_custom watcher_ops 0 1 2; Store_custom_val 2 2;
      Store_data 2 2%N; Caml_register_generational_global_root 2;
      Ev_timer_start (Some 9%positive) 2;
      Caml_enter_blocking_section;
      Ev_loop (Some 9%positive) EVLOOP_ONESHOT;
      Ev_invoke Handle_timer 2; Caml_leave_blocking_section;
      Caml_callback 2%N;
      Ev_invoke Handle_io 1; Caml_callback 0%N;
      Caml_remove_generational_global_root 1;
      Ev_io_stop (Some 9%positive) 1; Free 1 ].
Proof. vm_compute. reflexivity. Qed.

(** ** Invariants of a round of the multiplexer

    An invariant on the watchers and the handles that the closures keep,
    that queueing an event keeps and that handing a queued event to its
    trampoline keeps, is kept by both drive calls. *)

Section round_invariant.

Context {mon : Type}.
Variable step : mon → event → option mon.
Variable I : state → mon → Prop.
Variable apply_closure : closure → M unit.

Hypothesis step_drive_call : ∀ μ z c,
  drive_call c = true → step μ {| at_flag := z; call := c |} = Some μ.

Hypothesis I_watchers : ∀ s s' μ,
  same_watchers s s' → caml_heap s' = caml_heap s → I s μ → I s' μ.

Hypothesis apply_closure_inv : ∀ f s μ,
  I s μ → wp step (apply_closure f) (λ _, I) I s μ.

Hypothesis ev_feed_inv : ∀ w s μ,
  I s μ → wp step (ev_feed w) (λ _, I) I s μ.

Hypothesis hand_over_inv : ∀ w x cb st s μ z,
  I s μ → w ∈ ev_pending s →
  c_heap s !! w = Some x → w_init x = Some (cb, st) →
  ∃ μ', step μ {| at_flag := z; call := Ev_invoke cb w |} = Some μ'
        ∧ I (set_ev_pending (ev_pending s ∖ {[w]}) s) μ'.

Lemma LWT_UNIX_CHECK_inv s μ :
  I s μ → wp step LWT_UNIX_CHECK (λ _, I) I s μ.
Proof.
  intros HI. unfold LWT_UNIX_CHECK, caml_leave_blocking_section. wp_go.
  - eapply wp_log; [by apply step_drive_call|]. wp_go.
    eapply I_watchers; [| |done]; done.
  - done.
Qed.

Lemma call_trampoline_inv cb w s μ :
  I s μ → wp step (call_trampoline apply_closure cb w) (λ _, I) I s μ.
Proof.
  intros HI.
  assert (wp step
            (LWT_UNIX_CHECK;; data ← load_data w; caml_callback apply_closure data)
            (λ _, I) I s μ); [|by destruct cb].
  eapply wp_seq; [by apply LWT_UNIX_CHECK_inv|].
  intros [] s' μ' HI'. unfold load_data, caml_callback. wp_go.
  eapply wp_log; [by apply step_drive_call|].
  by apply apply_closure_inv.
Qed.

Lemma ev_deliver_inv w s μ :
  I s μ →
  wp step (ev_deliver (call_trampoline apply_closure) w) (λ _, I) I s μ.
Proof.
  intros HI. unfold ev_deliver. wp_go; try done.
  match goal with
  | Hin : w ∈ ev_pending s, Hw : c_heap s !! w = Some _ |- _ =>
      destruct (hand_over_inv w _ _ _ s μ (lwt_unix_in_blocking_section s)
                  HI Hin Hw eq_refl) as (μ' & Hstep & HI')
  end.
  eapply wp_log; [exact Hstep|].
  by apply call_trampoline_inv.
Qed.

Lemma ev_invoke_pending_inv ws s μ :
  I s μ →
  wp step (ev_invoke_pending (call_trampoline apply_closure) ws) (λ _, I) I
    s μ.
Proof.
  revert s μ. induction ws as [|w ws IH]; intros s μ HI; simpl; [by wp_go|].
  eapply wp_seq; [by apply ev_deliver_inv|]. intros [] s' μ' HI'. by apply IH.
Qed.

Lemma ev_queue_inv ws s μ :
  I s μ → wp step (ev_queue ws) (λ _, I) I s μ.
Proof.
  revert s μ. induction ws as [|w ws IH]; intros s μ HI; simpl; [by wp_go|].
  eapply wp_seq; [by apply ev_feed_inv|]. intros [] s' μ' HI'. by apply IH.
Qed.

Lemma ev_loop_inv lo flags s μ :
  I s μ →
  wp step (ev_loop (call_trampoline apply_closure) lo flags) (λ _, I) I s μ.
Proof.
  intros HI. unfold ev_loop. wp_go.
  eapply wp_log; [by apply step_drive_call|].
  unfold os_poll. wp_go.
  all: eapply wp_use;
    [apply ev_queue_inv; eapply I_watchers; [| |exact HI]; done|];
    intros [] s1 μ1 HI1; cbv beta.
  all: wp_go.
  all: eapply wp_use; [by apply ev_invoke_pending_inv|];
    intros [] s2 μ2 HI2; cbv beta.
  all: wp_go; try done.
  all: eapply I_watchers; [| |exact HI2]; done.
Qed.

Lemma lwt_libev_loop_inv s μ :
  I s μ → wp step (lwt_libev_loop apply_closure) (λ _, I) I s μ.
Proof.
  intros HI. unfold lwt_libev_loop, caml_enter_blocking_section. wp_go.
  eapply wp_log; [by apply step_drive_call|]. wp_go.
  eapply wp_use;
    [apply ev_loop_inv; eapply I_watchers; [| |exact HI]; done|].
  intros [] s1 μ1 HI1. wp_go.
  eapply wp_use; [by apply LWT_UNIX_CHECK_inv|]. intros [] s2 μ2 HI2.
  by wp_go.
Qed.

Lemma lwt_libev_loop_no_wait_inv s μ :
  I s μ → wp step (lwt_libev_loop_no_wait apply_closure) (λ _, I) I s μ.
Proof.
  intros HI. unfold lwt_libev_loop_no_wait, caml_enter_blocking_section. wp_go.
  eapply wp_log; [by apply step_drive_call|]. wp_go.
  eapply wp_use;
    [apply ev_loop_inv; eapply I_watchers; [| |exact HI]; done|].
  intros [] s1 μ1 HI1. wp_go.
  eapply wp_use; [by apply LWT_UNIX_CHECK_inv|]. intros [] s2 μ2 HI2.
  by wp_go.
Qed.

End round_invariant.

(** ** Handles, the collector and leaks *)

Lemma accept_release_monitor (t : list event) (μ : unit) :
  is_Some (accept release_monitor μ t) ↔ Forall (λ e, releases e = false) t.
Proof.
  destruct μ. induction t as [|e t IH]; simpl.
  - split; [constructor | eauto].
  - unfold release_monitor at 1. destruct (releases e) eqn:He.
    + split; [by intros [? ?] | inversion 1; congruence].
    + rewrite IH. split; [by constructor | by inversion 1].
Qed.

Lemma caml_gc_reclaim_handle (s : state) (h : block) (w : addr) :
  handle_of s h w →
  caml_gc_reclaim h s = ([], Ret tt (set_caml_heap (delete h (caml_heap s)) s)).
Proof.
  unfold handle_of, caml_gc_reclaim. intros Hh. mrun. rewrite Hh. done.
Qed.

Section leak.

Variable conv : Z → Z.
Variable code : closure → list ocaml_call.
Variable w : addr.

Hypothesis code_stop_free : ∀ f, forallb stop_free (code f) = true.

Lemma release_monitor_drive_call (μ : unit) z c :
  drive_call c = true →
  release_monitor μ {| at_flag := z; call := c |} = Some μ.
Proof. destruct μ, c; done. Qed.

Lemma pinned_watchers s s' μ :
  same_watchers s s' → caml_heap s' = caml_heap s →
  pinned w s μ → pinned w s' μ.
Proof. unfold pinned. intros (-> & -> & _) _. done. Qed.

Lemma ev_feed_pinned a s μ :
  pinned w s μ → wp release_monitor (ev_feed a) (λ _, pinned w) (pinned w) s μ.
Proof. intros HI. unfold ev_feed. wp_go; done. Qed.

Lemma hand_over_pinned a (x : ev_watcher) cb (st : ev_struct) s (μ : unit) z :
  pinned w s μ → a ∈ ev_pending s →
  c_heap s !! a = Some x → w_init x = Some (cb, st) →
  ∃ μ', release_monitor μ {| at_flag := z; call := Ev_invoke cb a |} = Some μ'
        ∧ pinned w (set_ev_pending (ev_pending s ∖ {[a]}) s) μ'.
Proof. intros HI _ _ _. exists tt. done. Qed.

Lemma pinned_grow s s' μ μ' :
  dom (c_heap s) ⊆ dom (c_heap s') → caml_roots s ⊆ caml_roots s' →
  pinned w s μ → pinned w s' μ'.
Proof.
  unfold pinned. intros Hd Hr [Hw Hp]. split; [by apply Hd | by apply Hr].
Qed.

Ltac pinned_done HI :=
  first [ done
        | eapply pinned_grow; [| |exact HI]; simpl; clear; set_solver ].

Lemma watch_init_pinned k callback s μ :
  pinned w s μ →
  wp release_monitor (watch_init conv k callback) (λ _, pinned w) (pinned w)
    s μ.
Proof.
  intros HI.
  destruct k; unfold watch_init; unfold_stubs; unfold_env; wp_go;
    pinned_done HI.
Qed.

Lemma exec_pinned (n : nat) (c : ocaml_call) s μ :
  stop_free c = true →
  pinned w s μ →
  wp release_monitor (exec conv code n c) (λ _, pinned w) (pinned w) s μ.
Proof.
  revert c s μ. induction n as [|n IH]; intros c s μ Hc HI; simpl.
  { apply wp_out_of_fuel. }
  assert (∀ f s μ, pinned w s μ →
            wp release_monitor (run_calls (exec conv code n) (code f))
              (λ _, pinned w) (pinned w) s μ) as Hclosure.
  { intros f s' μ' Hs'. apply wp_run_calls; [|done].
    intros c' s'' μ'' Hin. apply IH.
    pose proof (code_stop_free f) as Hf.
    rewrite forallb_forall in Hf. by apply Hf, list_elem_of_In. }
  destruct c; simpl in Hc; try discriminate.
  - unfold_stubs; unfold_env; wp_go; pinned_done HI.
  - unfold_stubs; unfold_env; wp_go; pinned_done HI.
  - apply (lwt_libev_loop_inv release_monitor (pinned w));
      [apply release_monitor_drive_call | apply pinned_watchers
      | exact Hclosure | apply ev_feed_pinned | apply hand_over_pinned | done].
  - apply (lwt_libev_loop_no_wait_inv release_monitor (pinned w));
      [apply release_monitor_drive_call | apply pinned_watchers
      | exact Hclosure | apply ev_feed_pinned | apply hand_over_pinned | done].
  - unfold_stubs; unfold_env; wp_go; pinned_done HI.
  - apply wp_bind. eapply wp_use; [by apply (watch_init_pinned (Readable fd))|].
    intros a s' μ' HI'. by wp_go.
  - apply wp_bind. eapply wp_use; [by apply (watch_init_pinned (Writable fd))|].
    intros a s' μ' HI'. by wp_go.
  - apply wp_bind.
    eapply wp_use; [by apply (watch_init_pinned (Signal signum))|].
    intros a s' μ' HI'. by wp_go.
  - apply wp_bind. eapply wp_use; [by apply (watch_init_pinned (Timer delay))|].
    intros a s' μ' HI'. by wp_go.
  - apply wp_catch. by apply IH.
  - unfold_stubs; unfold_env; wp_go; pinned_done HI.
Qed.

End leak.

Lemma run_pinned conv code w n cs s :
  (∀ f, forallb stop_free (code f) = true) →
  forallb stop_free cs = true →
  pinned w s tt →
  wp release_monitor (run conv code n cs) (λ _, pinned w) (pinned w) s tt.
Proof.
  intros Hcode Hcs HI. apply wp_run_calls; [|done].
  intros c s' μ' Hin. apply exec_pinned; [done|].
  rewrite forallb_forall in Hcs. by apply Hcs, list_elem_of_In.
Qed.

(** *** Stops of other handles *)

Lemma accept_release_at_monitor (w : addr) (t : list event) (μ : unit) :
  is_Some (accept (release_at_monitor w) μ t)
  ↔ Forall (λ e, releases_at w e = false) t.
Proof.
  destruct μ. induction t as [|e t IH]; simpl.
  - split; [constructor | eauto].
  - unfold release_at_monitor at 1. destruct (releases_at w e) eqn:He.
    + split; [by intros [? ?] | inversion 1; congruence].
    + rewrite IH. split; [by constructor | by inversion 1].
Qed.

Lemma stops_only_none (hs : block → bool) (c : ocaml_call) :
  (∀ h, hs h = false) → stops_only hs c = true → stop_free c = true.
Proof.
  intros Hhs. induction c; simpl; try done; by rewrite Hhs.
Qed.

Lemma stops_only_all (c : ocaml_call) : stops_only (λ _, true) c = true.
Proof. induction c; done. Qed.

Section reach.

Variable conv : Z → Z.
Variable code : closure → list ocaml_call.
Variable hs : block → bool.
Variable w : addr.

Hypothesis code_stops_only : ∀ f, forallb (stops_only hs) (code f) = true.

Lemma release_at_monitor_drive_call (μ : unit) z c :
  drive_call c = true →
  release_at_monitor w μ {| at_flag := z; call := c |} = Some μ.
Proof. destruct μ, c; done. Qed.

Lemma release_at_monitor_free (μ : unit) s a :
  a ≠ w → release_at_monitor w μ (at_state s (Free a)) = Some tt.
Proof.
  intros Hne. unfold release_at_monitor, releases_at. simpl.
  by rewrite bool_decide_eq_false_2.
Qed.

Lemma release_at_monitor_unpin (μ : unit) s a :
  a ≠ w →
  release_at_monitor w μ (at_state s (Caml_remove_generational_global_root a))
  = Some tt.
Proof.
  intros Hne. unfold release_at_monitor, releases_at. simpl.
  by rewrite bool_decide_eq_false_2.
Qed.

(** The descriptors and pins may grow and the blocks that point to [w] may
    go. *)
Lemma out_of_reach_grow s s' μ μ' :
  dom (c_heap s) ⊆ dom (c_heap s') → caml_roots s ⊆ caml_roots s' →
  (∀ h, points_to s' h w → points_to s h w) →
  out_of_reach hs w s μ → out_of_reach hs w s' μ'.
Proof.
  intros Hd Hr Hp (Hw & Hpin & Hno). split_and!.
  - by apply Hd.
  - by apply Hr.
  - intros h Hh. by apply Hno, Hp.
Qed.

Lemma out_of_reach_watchers s s' μ :
  same_watchers s s' → caml_heap s' = caml_heap s →
  out_of_reach hs w s μ → out_of_reach hs w s' μ.
Proof.
  intros (Hc & Hr & _) Hh. apply out_of_reach_grow.
  - by rewrite Hc.
  - by rewrite Hr.
  - unfold points_to. by rewrite Hh.
Qed.

(** Another descriptor is released. *)
Lemma out_of_reach_after_stop a s μ μ' :
  a ≠ w → out_of_reach hs w s μ → out_of_reach hs w (after_stop a s) μ'.
Proof.
  intros Hne (Hw & Hpin & Hno). split_and!; simpl.
  - apply elem_of_dom. rewrite lookup_delete_ne by done. by apply elem_of_dom.
  - rewrite elem_of_difference, elem_of_singleton. split; [done|congruence].
  - done.
Qed.

(** A new handle points to a new descriptor. *)
Lemma points_to_new_handle s h c c' hp a :
  a ∉ dom (c_heap s) → w ∈ dom (c_heap s) →
  cb_val c' = Some a →
  caml_heap s !! h = None →
  (∃ x, <[h := c']> (<[h := c]> (caml_heap s)) !! hp = Some x
        ∧ cb_val x = Some w) →
  points_to s hp w.
Proof.
  intros Ha Hw Hc' Hfresh (x & Hx & Hv).
  destruct (decide (hp = h)) as [->|Hne].
  - rewrite lookup_insert_eq in Hx. simplify_eq. congruence.
  - rewrite !lookup_insert_ne in Hx by done. by exists x.
Qed.

Lemma ev_feed_out_of_reach a s μ :
  out_of_reach hs w s μ →
  wp (release_at_monitor w) (ev_feed a) (λ _, out_of_reach hs w)
    (out_of_reach hs w) s μ.
Proof. intros HI. unfold ev_feed. wp_go; done. Qed.

Lemma hand_over_out_of_reach a (x : ev_watcher) cb (st : ev_struct) s
    (μ : unit) z :
  out_of_reach hs w s μ → a ∈ ev_pending s →
  c_heap s !! a = Some x → w_init x = Some (cb, st) →
  ∃ μ', release_at_monitor w μ {| at_flag := z; call := Ev_invoke cb a |}
        = Some μ'
        ∧ out_of_reach hs w (set_ev_pending (ev_pending s ∖ {[a]}) s) μ'.
Proof. intros HI _ _ _. exists tt. done. Qed.

Lemma watch_init_out_of_reach k callback s μ :
  out_of_reach hs w s μ →
  wp (release_at_monitor w) (watch_init conv k callback)
    (λ _, out_of_reach hs w) (out_of_reach hs w) s μ.
Proof.
  intros HI.
  assert (fresh (dom (c_heap s)) ∉ dom (c_heap s)) as Hw by apply is_fresh.
  assert (caml_heap s !! fresh (dom (caml_heap s)) = None) as Hh.
  { apply not_elem_of_dom, is_fresh. }
  destruct k; unfold watch_init; unfold_stubs; unfold_env; wp_go.
  all: first
    [ done
    | eapply out_of_reach_grow; [| | |exact HI]; simpl;
      [ clear; set_solver
      | clear; set_solver
      | intros hp Hp;
        eapply (points_to_new_handle s _ _ _ hp _ Hw (proj1 HI)); [|exact Hh|exact Hp];
        done ] ].
Qed.

(** What a stop stub reads in its handle. *)
Lemma custom_val_read_points_to h s (μ : unit) E :
  wp (release_at_monitor w) (custom_val_read h)
    (λ a s' μ', s' = s ∧ points_to s h a) E s μ.
Proof.
  unfold custom_val_read. wp_go. split; [done|]. by eexists.
Qed.

Lemma watch_stop_out_of_reach k h s μ :
  hs h = true →
  out_of_reach hs w s μ →
  wp (release_at_monitor w) (watch_stop k h) (λ _, out_of_reach hs w)
    (out_of_reach hs w) s μ.
Proof.
  intros Hh HI.
  assert (wp (release_at_monitor w) (custom_val_read h)
            (λ a s' μ', s' = s ∧ a ≠ w) (out_of_reach hs w) s μ) as Hread.
  { eapply wp_use; [apply custom_val_read_points_to|].
    intros a s' μ' [-> Hp]. split; [done|]. intros ->.
    destruct HI as (_ & _ & Hno). rewrite (Hno h Hp) in Hh. done. }
  destruct k; unfold watch_stop; unfold_stubs; apply wp_bind.
  all: eapply wp_use; [exact Hread|]; intros a s' μ' [-> Hne]; cbv beta.
  all: unfold_env.
  all: repeat first
    [ wp_step
    | eapply wp_log;
      [first [by apply release_at_monitor_free
             | by apply release_at_monitor_unpin]|] ].
  all: try done.
  all: first
    [ by apply (out_of_reach_after_stop a s)
    | eapply out_of_reach_grow; [| | |by apply (out_of_reach_after_stop a s μ tt Hne)];
      simpl; done ].
Qed.

Lemma exec_out_of_reach (n : nat) (c : ocaml_call) s μ :
  stops_only hs c = true →
  out_of_reach hs w s μ →
  wp (release_at_monitor w) (exec conv code n c) (λ _, out_of_reach hs w)
    (out_of_reach hs w) s μ.
Proof.
  revert c s μ. induction n as [|n IH]; intros c s μ Hc HI; simpl.
  { apply wp_out_of_fuel. }
  assert (∀ f s μ, out_of_reach hs w s μ →
            wp (release_at_monitor w) (run_calls (exec conv code n) (code f))
              (λ _, out_of_reach hs w) (out_of_reach hs w) s μ) as Hclosure.
  { intros f s' μ' Hs'. apply wp_run_calls; [|done].
    intros c' s'' μ'' Hin. apply IH.
    pose proof (code_stops_only f) as Hf.
    rewrite forallb_forall in Hf. by apply Hf, list_elem_of_In. }
  destruct c; simpl in Hc.
  - unfold_stubs; unfold_env; wp_go; done.
  - unfold_stubs; unfold_env; wp_go; done.
  - apply (lwt_libev_loop_inv (release_at_monitor w) (out_of_reach hs w));
      [ apply release_at_monitor_drive_call | apply out_of_reach_watchers
      | exact Hclosure | apply ev_feed_out_of_reach
      | apply hand_over_out_of_reach | done ].
  - apply (lwt_libev_loop_no_wait_inv (release_at_monitor w)
             (out_of_reach hs w));
      [ apply release_at_monitor_drive_call | apply out_of_reach_watchers
      | exact Hclosure | apply ev_feed_out_of_reach
      | apply hand_over_out_of_reach | done ].
  - unfold_stubs; unfold_env; wp_go; done.
  - apply wp_bind.
    eapply wp_use; [by apply (watch_init_out_of_reach (Readable fd))|].
    intros a s' μ' HI'. by wp_go.
  - apply wp_bind.
    eapply wp_use; [by apply (watch_init_out_of_reach (Writable fd))|].
    intros a s' μ' HI'. by wp_go.
  - by apply (watch_stop_out_of_reach (Readable 0)).
  - apply wp_bind.
    eapply wp_use; [by apply (watch_init_out_of_reach (Signal signum))|].
    intros a s' μ' HI'. by wp_go.
  - by apply (watch_stop_out_of_reach (Signal 0)).
  - apply wp_bind.
    eapply wp_use; [by apply (watch_init_out_of_reach (Timer delay))|].
    intros a s' μ' HI'. by wp_go.
  - by apply (watch_stop_out_of_reach (Timer 0)).
  - apply wp_catch. by apply IH.
  - unfold_stubs; unfold_env; wp_go; try done.
    all: eapply out_of_reach_grow; [| | |exact HI]; simpl; try done.
    all: intros hp (x & Hx & Hv); simpl in Hx;
      apply lookup_delete_Some in Hx as [_ Hx]; by exists x.
Qed.

End reach.

Lemma run_out_of_reach conv code hs w n cs s :
  (∀ f, forallb (stops_only hs) (code f) = true) →
  forallb (stops_only hs) cs = true →
  out_of_reach hs w s tt →
  Forall (λ e, releases_at w e = false) (trace (run conv code n cs s))
  ∧ still_pinned w (result (run conv code n cs s)).
Proof.
  intros Hcode Hcs HI.
  destruct (wp_run_calls (release_at_monitor w) (exec conv code n)
              (out_of_reach hs w) cs) with (s := s) (μ := tt)
    as (μ' & Ht & Hres).
  - intros c s' μ' Hin. apply exec_out_of_reach; [done|].
    rewrite forallb_forall in Hcs. by apply Hcs, list_elem_of_In.
  - done.
  - split.
    + apply (accept_release_at_monitor w _ tt). unfold run. eauto.
    + unfold still_pinned, run, out_of_reach in *.
      destruct (result _); tauto.
Qed.

(** Once the only handle of a watcher is collected, no block points to its
    descriptor. *)
Lemma dropped_out_of_reach (s : state) (h : block) (w : addr) :
  w ∈ dom (c_heap s) → w ∈ caml_roots s →
  (∀ h', points_to s h' w → h' = h) →
  out_of_reach (λ _, true) w (set_caml_heap (delete h (caml_heap s)) s) tt.
Proof.
  intros Hw Hr Honly. split_and!; [done..|].
  intros h' (x & Hx & Hv). simpl in Hx.
  apply lookup_delete_Some in Hx as [Hne Hx].
  destruct Hne. symmetry. apply Honly. by exists x.
Qed.

(** C10: the operations of a watcher handle have no finalizer, so the
    collector reclaiming a handle makes no call and changes nothing but the
    OCaml heap.  A descriptor that is live and pinned is freed and unpinned
    by a stop called on a handle of it and by nothing else: a program that
    calls stop on other handles only, whatever else it does and whichever
    handles the collector reclaims, makes no call of [free] and of
    [caml_remove_generational_global_root] on the descriptor and leaves it
    live and pinned; a program with no stop at all makes no such call on
    any descriptor.  Once the only handle of the descriptor is collected
    the leak is permanent: no program whatsoever, not even one that calls
    stop on every block, frees the descriptor or unpins the callback. *)
Theorem handle_collection_releases_nothing (conv : Z → Z)
    (code : closure → list ocaml_call) (n : nat) (cs : list ocaml_call)
    (hs : block → bool) (s : state) (h : block) (w : addr) :
  handle_of s h w →
  w ∈ dom (c_heap s) → w ∈ caml_roots s →
  (∀ h', points_to s h' w → hs h' = false) →
  (∀ f, forallb (stops_only hs) (code f) = true) →
  forallb (stops_only hs) cs = true →
  let dropped := set_caml_heap (delete h (caml_heap s)) s in
  finalize watcher_ops = None
  ∧ caml_gc_reclaim h s = ([], Ret tt dropped)
  ∧ same_watchers s dropped
  ∧ Forall (λ e, releases_at w e = false) (trace (run conv code n cs s))
  ∧ still_pinned w (result (run conv code n cs s))
  ∧ ((∀ h', hs h' = false) →
     Forall (λ e, releases e = false) (trace (run conv code n cs s)))
  ∧ ((∀ h', points_to s h' w → h' = h) →
     ∀ (code' : closure → list ocaml_call) (n' : nat)
       (cs' : list ocaml_call),
       Forall (λ e, releases_at w e = false)
         (trace (run conv code' n' cs' dropped))
       ∧ still_pinned w (result (run conv code' n' cs' dropped))).
Proof.
  intros Hh Hw Hr Hhs Hcode Hcs dropped.
  destruct (run_out_of_reach conv code hs w n cs s Hcode Hcs) as [Ht Hres].
  { by split_and!. }
  split_and!.
  - done.
  - by eapply caml_gc_reclaim_handle.
  - done.
  - done.
  - done.
  - intros Hnone.
    destruct (run_pinned conv code w n cs s) as (μ' & Ht' & _).
    + intros f. pose proof (Hcode f) as Hf.
      rewrite forallb_forall in Hf |- *. intros c Hc.
      eapply stops_only_none; eauto.
    + rewrite forallb_forall in Hcs |- *. intros c Hc.
      eapply stops_only_none; eauto.
    + by split.
    + apply (accept_release_monitor _ tt). eauto.
  - intros Honly code' n' cs'.
    apply (run_out_of_reach conv code' (λ _, true)).
    + intros f. apply forallb_forall. intros c _. apply stops_only_all.
    + apply forallb_forall. intros c _. apply stops_only_all.
    + by apply dropped_out_of_reach.
Qed.

Lemma points_to_after_init (conv : Z → Z) (k : watch) (callback : closure)
    (s : state) (h : block) (w : addr) :
  points_to (after_init conv k callback s) h w →
  (h = fresh (dom (caml_heap s)) ∧ w = fresh (dom (c_heap s)))
  ∨ points_to s h w.
Proof.
  intros (c & Hc & Hv). simpl in Hc.
  destruct (decide (h = fresh (dom (caml_heap s)))) as [->|Hne].
  - rewrite lookup_insert_eq in Hc. simplify_eq/=. by left.
  - rewrite lookup_insert_ne in Hc by done. right. by exists c.
Qed.

Lemma handle_collection_releases_nothing_witness :
  let s0 := set_main_loop (Some 9%positive) (initial_state [] []) in
  let s := after_init (λ n, n) (Writable 3) 1%N
             (after_init (λ n, n) (Readable 3) 0%N s0) in
  let dropped := set_caml_heap (delete 1%positive (caml_heap s)) s in
  let cs := [Gc_reclaim 1%positive; Call_io_stop 2%positive] in
  let cs' := [Call_io_stop 2%positive; Call_readable_init 4 0%N;
              Call_io_stop 3%positive] in
  caml_gc_reclaim 1%positive s = ([], Ret tt dropped)
  ∧ calls (run (λ n, n) (λ _, []) 3 cs s)
    = [ Caml_remove_generational_global_root 2;
        Ev_io_stop (Some 9%positive) 2; Free 2 ]
  ∧ Forall (λ e, releases_at 1 e = false)
      (trace (run (λ n, n) (λ _, []) 3 cs s))
  ∧ still_pinned 1%positive (result (run (λ n, n) (λ _, []) 3 cs s))
  ∧ calls (run (λ n, n) (λ _, []) 3 cs' dropped)
    = [ Caml_remove_generational_global_root 2;
        Ev_io_stop (Some 9%positive) 2; Free 2;
        Lwt_unix_new 2; Ev_io_init 2 Handle_io 4 EV_READ;
        Caml_alloc_custom watcher_ops 0 1 3; Store_custom_val 3 2;
        Store_data 2 0%N; Caml_register_generational_global_root 2;
        Ev_io_start (Some 9%positive) 2;
        Caml_remove_generational_global_root 2;
        Ev_io_stop (Some 9%positive) 2; Free 2 ]
  ∧ Forall (λ e, releases_at 1 e = false)
      (trace (run (λ n, n) (λ _, []) 3 cs' dropped))
  ∧ still_pinned 1%positive (result (run (λ n, n) (λ _, []) 3 cs' dropped)).
Proof.
  intros s0 s dropped cs cs'.
  assert (∀ h', points_to s h' 1%positive → h' = 1%positive) as Honly.
  { intros h' Hp.
    apply points_to_after_init in Hp as [[_ Hw]|Hp]; [discriminate Hw|].
    apply points_to_after_init in Hp as [[-> _]|(c & Hc & _)]; [done|].
    discriminate Hc. }
  pose proof (handle_collection_releases_nothing (λ n, n) (λ _, []) 3 cs
                (Pos.eqb 2) s 1%positive 1%positive) as H.
  refine ((λ H', _) (H _ _ _ _ _ _)).
  - destruct H' as (_ & Hgc & _ & Ht & Hres & _ & Hleak).
    destruct (Hleak Honly (λ _, []) 3%nat cs') as [Ht' Hres'].
    split_and!; [exact Hgc | reflexivity | exact Ht | exact Hres
                | reflexivity | exact Ht' | exact Hres'].
  - apply (after_init_keeps_handle (λ n, n)), (after_init_handle (λ n, n)).
  - apply elem_of_dom. eexists.
    apply (after_init_keeps_watching (λ n, n)), (after_init_watching (λ n, n)).
  - apply (after_init_keeps_watching (λ n, n) (Readable 3) (Writable 3) 0%N 1%N),
      (after_init_watching (λ n, n)).
  - intros h' Hp. by rewrite (Honly h' Hp).
  - reflexivity.
  - reflexivity.
Defined.
(** ** Timers fire once *)

Section timer_wf_facts.

Variable w : addr.

Lemma timer_wf_empty (μ : bool) : timer_wf w ∅ ∅ ∅ μ.
Proof.
  split_and!.
  - intros a [Ha|Ha]; by apply not_elem_of_empty in Ha.
  - intros a x i Ha. by rewrite lookup_empty in Ha.
  - intros a Ha. by apply not_elem_of_empty in Ha.
  - intros [Ha|Ha]; by apply not_elem_of_empty in Ha.
Qed.

Lemma timer_at_insert_ne hp a a' x :
  a ≠ a' → timer_at (<[a := x]> hp) a' ↔ timer_at hp a'.
Proof. intros Hne. unfold timer_at. by rewrite lookup_insert_ne. Qed.

Lemma timer_at_delete hp a a' : timer_at (delete a hp) a' → timer_at hp a'.
Proof.
  intros (x & st & Hx & Hi). exists x, st. split; [|done].
  apply lookup_delete_Some in Hx. tauto.
Qed.

Lemma timer_wf_registered hp act pen (μ μ' : bool) a cb st f :
  timer_wf w hp act pen μ →
  a ∉ dom hp →
  good_init (cb, st) →
  (cb = Handle_timer → a = w → μ' = true) →
  (μ = true → μ' = true) →
  timer_wf w (<[a := {| w_init := Some (cb, st); w_data := Some f |}]> hp)
    ({[a]} ∪ act) pen μ'.
Proof.
  intros (W1 & W2 & W3 & W4) Ha Hgood Hw Hμ.
  assert ((a ∉ act) ∧ (a ∉ pen)) as [Hact Hpen].
  { split; intros Hin; apply Ha, W1; auto. }
  split_and!.
  - intros a' Ha'. rewrite dom_insert. apply elem_of_union.
    rewrite elem_of_union, elem_of_singleton in Ha'.
    destruct Ha' as [[->|Ha']|Ha']; [left; by apply elem_of_singleton|..];
      right; apply W1; auto.
  - intros a' x i Hx Hi. apply lookup_insert_Some in Hx.
    destruct Hx as [[<- <-]|[Hne Hx]]; [|exact (W2 _ _ _ Hx Hi)].
    by simplify_eq/=.
  - intros a' Ha' Ht. assert (a ≠ a') as Hne by congruence.
    rewrite timer_at_insert_ne in Ht by done.
    rewrite elem_of_union, elem_of_singleton.
    intros [->|Hin]; [done|]. exact (W3 a' Ha' Ht Hin).
  - intros Hin Ht. destruct (decide (a = w)) as [->|Hne].
    + destruct Ht as (x & st' & Hx & Hi). rewrite lookup_insert_eq in Hx.
      simplify_eq/=. by apply Hw.
    + rewrite timer_at_insert_ne in Ht by done. apply Hμ, W4; [|done].
      rewrite elem_of_union, elem_of_singleton in Hin.
      destruct Hin as [[->|Hin]|Hin]; [done|auto..].
Qed.

Lemma timer_wf_released hp act pen (μ : bool) a :
  timer_wf w hp act pen μ →
  timer_wf w (delete a hp) (act ∖ {[a]}) (pen ∖ {[a]}) μ.
Proof.
  intros (W1 & W2 & W3 & W4). split_and!.
  - intros a' Ha'. rewrite dom_delete, elem_of_difference, elem_of_singleton.
    rewrite !elem_of_difference, !elem_of_singleton in Ha'.
    split; [apply W1|]; tauto.
  - intros a' x i Hx Hi. apply lookup_delete_Some in Hx.
    exact (W2 _ _ _ (proj2 Hx) Hi).
  - intros a' Ha' Ht. apply timer_at_delete in Ht.
    rewrite elem_of_difference in Ha'. rewrite elem_of_difference.
    intros [Hin _]. exact (W3 a' (proj1 Ha') Ht Hin).
  - intros Hin Ht. apply timer_at_delete in Ht. apply W4; [|done].
    rewrite !elem_of_difference in Hin. tauto.
Qed.

Lemma timer_wf_cleared hp act pen (μ : bool) :
  timer_wf w hp act pen μ → timer_wf w hp ∅ ∅ μ.
Proof.
  intros (W1 & W2 & W3 & W4). split_and!.
  - intros a [Ha|Ha]; by apply not_elem_of_empty in Ha.
  - done.
  - intros a Ha. by apply not_elem_of_empty in Ha.
  - intros [Ha|Ha]; by apply not_elem_of_empty in Ha.
Qed.

Lemma timer_wf_is_timer hp act pen (μ : bool) a x cb af r :
  timer_wf w hp act pen μ →
  hp !! a = Some x → w_init x = Some (cb, Ev_timer af r) →
  cb = Handle_timer ∧ double_is_zero r = true.
Proof.
  intros (_ & W2 & _) Hx Hi. specialize (W2 a x _ Hx Hi).
  by destruct cb.
Qed.

Lemma timer_wf_not_timer hp act pen (μ : bool) a x cb st :
  timer_wf w hp act pen μ →
  hp !! a = Some x → w_init x = Some (cb, st) → is_timer st = false →
  ¬ timer_at hp a.
Proof.
  intros (_ & W2 & _) Hx Hi Hst (x' & st' & Hx' & Hi').
  rewrite Hx in Hx'. injection Hx' as <-. rewrite Hi in Hi'.
  injection Hi' as -> <-. specialize (W2 a x _ Hx Hi). by destruct st.
Qed.

(** Queueing the event of a timer stops it. *)
Lemma timer_wf_feed_timer hp act pen (μ : bool) a :
  timer_wf w hp act pen μ → a ∈ act →
  timer_wf w hp (act ∖ {[a]}) ({[a]} ∪ pen) μ.
Proof.
  intros (W1 & W2 & W3 & W4) Ha. split_and!.
  - intros a'. rewrite elem_of_difference, elem_of_union, elem_of_singleton.
    intros [[Hin _]|[->|Hin]]; apply W1; auto.
  - done.
  - intros a'. rewrite elem_of_union, elem_of_difference, !elem_of_singleton.
    intros [->|Hin] Ht [Hact Hne]; [done|]. exact (W3 a' Hin Ht Hact).
  - rewrite elem_of_difference, elem_of_union, elem_of_singleton.
    intros Hin Ht. apply W4; [|done].
    destruct Hin as [[Hin _]|[->|Hin]]; auto.
Qed.

(** Queueing the event of a watcher that is not a timer. *)
Lemma timer_wf_feed_other hp act pen (μ : bool) a :
  timer_wf w hp act pen μ → a ∈ act → ¬ timer_at hp a →
  timer_wf w hp act ({[a]} ∪ pen) μ.
Proof.
  intros (W1 & W2 & W3 & W4) Ha Hno. split_and!.
  - intros a'. rewrite elem_of_union, elem_of_singleton.
    intros [Hin|[->|Hin]]; apply W1; auto.
  - done.
  - intros a'. rewrite elem_of_union, elem_of_singleton.
    intros [->|Hin] Ht; [done|]. exact (W3 a' Hin Ht).
  - rewrite elem_of_union, elem_of_singleton.
    intros Hin Ht. apply W4; [|done].
    destruct Hin as [Hin|[->|Hin]]; auto.
Qed.

(** Handing the queued event of [a] to its trampoline: the monitor accepts
    it, and disarms the timer at [w] if that is the one. *)
Lemma timer_wf_hand_over hp act pen (μ : bool) a x cb st z :
  timer_wf w hp act pen μ → a ∈ pen →
  hp !! a = Some x → w_init x = Some (cb, st) →
  ∃ μ', timer_monitor w μ {| at_flag := z; call := Ev_invoke cb a |} = Some μ'
        ∧ timer_wf w hp act (pen ∖ {[a]}) μ'.
Proof.
  intros HW Ha Hx Hi. pose proof HW as (W1 & W2 & W3 & W4).
  assert (∀ μ', (w ∈ act ∨ w ∈ pen ∖ {[a]} → timer_at hp w → μ' = true) →
                timer_wf w hp act (pen ∖ {[a]}) μ') as Hshrink.
  { intros μ' Hμ'. split_and!.
    - intros a'. rewrite elem_of_difference.
      intros [Hin|[Hin _]]; apply W1; auto.
    - done.
    - intros a'. rewrite elem_of_difference. intros [Hin _].
      exact (W3 a' Hin).
    - done. }
  assert (timer_wf w hp act (pen ∖ {[a]}) μ) as Hsame.
  { apply Hshrink. rewrite elem_of_difference. intros Hin Ht.
    apply W4; [tauto|done]. }
  unfold timer_monitor. simpl.
  destruct cb; try (by eexists).
  destruct (decide (a = w)) as [->|Hne]; [|by eexists].
  assert (timer_at hp w) as Ht by (by exists x, st).
  rewrite (W4 (or_intror Ha) Ht). eexists; split; [done|].
  apply Hshrink. rewrite elem_of_difference, elem_of_singleton.
  intros [Hin|[_ Hin]] _; [|done].
  by destruct (W3 w Ha Ht).
Qed.

Lemma timer_wf_released_idle hp act pen (μ : bool) a :
  timer_wf w hp act pen μ → ¬ (a ∈ act ∨ a ∈ pen) →
  timer_wf w (delete a hp) act pen μ.
Proof.
  intros HW Hno.
  rewrite <- (difference_singleton_not_elem a act) by tauto.
  rewrite <- (difference_singleton_not_elem a pen) by tauto.
  by apply timer_wf_released.
Qed.

End timer_wf_facts.

Lemma wp_eval {mon A} (step : mon → event → option mon) (m : M A) s t o
    (Q : A → state → mon → Prop) (E : state → mon → Prop) μ μ' :
  m s = (t, o) →
  accept step μ t = Some μ' →
  match o with
  | Ret a s' => Q a s' μ'
  | Raise _ s' => E s' μ'
  | Undef | OutOfFuel => True
  end →
  wp step m Q E s μ.
Proof. intros Hm Ht Ho. exists μ'. unfold trace, result. by rewrite Hm. Qed.

(** Registration without a Loop: the same steps, and the last one, the start
    of the watch, is undefined. *)
Lemma watch_init_eval_null conv (k : watch) (callback : closure) (s : state) :
  lwt_unix_main_loop s = None →
  fresh (dom (c_heap s)) ∉ ev_active s →
  let w := fresh (dom (c_heap s)) in
  let h := fresh (dom (caml_heap s)) in
  watch_init conv k callback s
  = (at_state s <$>
       [ Lwt_unix_new w; init_call conv k w;
         Caml_alloc_custom watcher_ops 0 1 h; Store_custom_val h w;
         Store_data w callback; Caml_register_generational_global_root w;
         start_call k None w ],
     Undef).
Proof.
  intros Hl Hact w h.
  destruct k; unfold watch_init, lwt_libev_readable_init,
    lwt_libev_writable_init, lwt_libev_io_init, lwt_libev_signal_init,
    lwt_libev_timer_init, lwt_unix_new, ev_io_init, ev_signal_init,
    ev_timer_init, ev_init, caml_alloc_custom, custom_val_write, store_data,
    caml_register_generational_global_root, ev_io_start, ev_signal_start,
    ev_timer_start, ev_start.
  all: repeat (mrun; first [rewrite lookup_insert_eq | rewrite Hl]).
  all: fold w; rewrite decide_False by done.
  all: done.
Qed.

Section timer_program.

Variable conv : Z → Z.
Variable code : closure → list ocaml_call.
Variable w : addr.

Lemma timer_monitor_drive_call (μ : bool) z c :
  drive_call c = true →
  timer_monitor w μ {| at_flag := z; call := c |} = Some μ.
Proof. by destruct c. Qed.

Lemma timer_inv_watchers s s' (μ : bool) :
  same_watchers s s' → caml_heap s' = caml_heap s →
  timer_inv w s μ → timer_inv w s' μ.
Proof. unfold timer_inv. by intros (-> & _ & -> & ->) _. Qed.

Lemma ev_feed_timer_inv a s (μ : bool) :
  timer_inv w s μ →
  wp (timer_monitor w) (ev_feed a) (λ _, timer_inv w) (timer_inv w) s μ.
Proof.
  intros HI. unfold ev_feed. wp_go; try done.
  all: unfold timer_inv in *; simpl.
  all: match goal with
       | Hw : c_heap _ !! _ = Some _ |- _ =>
           first
             [ by apply timer_wf_feed_timer
             | apply timer_wf_feed_other; [done..|];
               by apply (timer_wf_not_timer w _ _ _ μ a _ _ _ HI Hw eq_refl)
             | destruct (timer_wf_is_timer w _ _ _ μ a _ _ _ _ HI Hw eq_refl)
                 as [_ Hzero]; congruence ]
       end.
Qed.

Lemma hand_over_timer_inv a (x : ev_watcher) cb (st : ev_struct) s (μ : bool) z :
  timer_inv w s μ → a ∈ ev_pending s →
  c_heap s !! a = Some x → w_init x = Some (cb, st) →
  ∃ μ', timer_monitor w μ {| at_flag := z; call := Ev_invoke cb a |} = Some μ'
        ∧ timer_inv w (set_ev_pending (ev_pending s ∖ {[a]}) s) μ'.
Proof. intros HI Ha Hx Hi. by eapply timer_wf_hand_over. Qed.

Lemma watch_init_timer_inv k callback s (μ : bool) :
  timer_inv w s μ →
  wp (timer_monitor w) (watch_init conv k callback) (λ _, timer_inv w)
    (timer_inv w) s μ.
Proof.
  intros HI.
  assert (fresh (dom (c_heap s)) ∉ dom (c_heap s)) as Hfresh by apply is_fresh.
  assert (fresh (dom (c_heap s)) ∉ ev_active s) as Hact.
  { intros Hin. apply Hfresh, HI. auto. }
  destruct (lwt_unix_main_loop s) as [l|] eqn:Hl.
  - destruct (decide (fresh (dom (c_heap s)) = w)) as [Hw|Hw].
    + destruct k;
        (eapply wp_eval;
         [by apply watch_init_eval
         | simpl; unfold timer_monitor; simpl; rewrite ?decide_True by done;
           reflexivity
         | unfold timer_inv, after_init; simpl;
           apply (timer_wf_registered w _ _ _ μ); auto; try discriminate;
           done ]).
    + destruct k;
        (eapply wp_eval;
         [by apply watch_init_eval
         | simpl; unfold timer_monitor; simpl; rewrite ?decide_False by done;
           reflexivity
         | unfold timer_inv, after_init; simpl;
           apply (timer_wf_registered w _ _ _ μ); auto; done ]).
  - destruct (decide (fresh (dom (c_heap s)) = w)) as [Hw|Hw].
    + destruct k;
        (eapply wp_eval;
         [by apply watch_init_eval_null
         | simpl; unfold timer_monitor; simpl; rewrite ?decide_True by done;
           reflexivity
         | done ]).
    + destruct k;
        (eapply wp_eval;
         [by apply watch_init_eval_null
         | simpl; unfold timer_monitor; simpl; rewrite ?decide_False by done;
           reflexivity
         | done ]).
Qed.

Lemma watch_stop_timer_inv k h s (μ : bool) :
  timer_inv w s μ →
  wp (timer_monitor w) (watch_stop k h) (λ _, timer_inv w) (timer_inv w) s μ.
Proof.
  intros HI.
  destruct k; unfold watch_stop; unfold_stubs; unfold_env; wp_go; try done.
  all: unfold timer_inv in *; simpl.
  all: first [ by apply timer_wf_released
             | by apply timer_wf_released_idle ].
Qed.

Lemma exec_timer_inv (n : nat) (c : ocaml_call) s (μ : bool) :
  timer_inv w s μ →
  wp (timer_monitor w) (exec conv code n c) (λ _, timer_inv w) (timer_inv w)
    s μ.
Proof.
  revert c s μ. induction n as [|n IH]; intros c s μ HI; simpl.
  { apply wp_out_of_fuel. }
  assert (∀ f s μ, timer_inv w s μ →
            wp (timer_monitor w) (run_calls (exec conv code n) (code f))
              (λ _, timer_inv w) (timer_inv w) s μ) as Hclosure.
  { intros f s' μ' Hs'. apply wp_run_calls; [|done]. intros. by apply IH. }
  destruct c.
  - unfold_stubs; unfold_env; wp_go; done.
  - unfold_stubs; unfold_env; wp_go; try done.
    unfold timer_inv in *; simpl. by eapply timer_wf_cleared.
  - apply (lwt_libev_loop_inv (timer_monitor w) (timer_inv w));
      [apply timer_monitor_drive_call | apply timer_inv_watchers
      | exact Hclosure | apply ev_feed_timer_inv | apply hand_over_timer_inv
      | done].
  - apply (lwt_libev_loop_no_wait_inv (timer_monitor w) (timer_inv w));
      [apply timer_monitor_drive_call | apply timer_inv_watchers
      | exact Hclosure | apply ev_feed_timer_inv | apply hand_over_timer_inv
      | done].
  - unfold_stubs; unfold_env; wp_go; done.
  - apply wp_bind. eapply wp_use; [by apply (watch_init_timer_inv (Readable fd))|].
    intros a s' μ' HI'. by wp_go.
  - apply wp_bind. eapply wp_use; [by apply (watch_init_timer_inv (Writable fd))|].
    intros a s' μ' HI'. by wp_go.
  - by apply (watch_stop_timer_inv (Readable 0)).
  - apply wp_bind.
    eapply wp_use; [by apply (watch_init_timer_inv (Signal signum))|].
    intros a s' μ' HI'. by wp_go.
  - by apply (watch_stop_timer_inv (Signal 0)).
  - apply wp_bind. eapply wp_use; [by apply (watch_init_timer_inv (Timer delay))|].
    intros a s' μ' HI'. by wp_go.
  - by apply (watch_stop_timer_inv (Timer 0)).
  - apply wp_catch. by apply IH.
  - unfold_stubs; unfold_env; wp_go; done.
Qed.

End timer_program.

Lemma run_one_firing_per_start conv code n cs loops ready w :
  one_firing_per_start w (trace (run conv code n cs (initial_state loops ready))).
Proof.
  destruct (wp_run_calls (timer_monitor w) (exec conv code n) (timer_inv w) cs)
    with (s := initial_state loops ready) (μ := false) as (μ' & Ht & _).
  - intros c s μ _. apply exec_timer_inv.
  - apply timer_wf_empty.
  - unfold one_firing_per_start, run. eauto.
Qed.

Lemma lwt_libev_timer_init_calls delay callback s :
  let a := fresh (dom (c_heap s)) in
  let h := fresh (dom (caml_heap s)) in
  calls (lwt_libev_timer_init delay callback s)
  = [ Lwt_unix_new a; Ev_timer_init a Handle_timer delay double_zero;
      Caml_alloc_custom watcher_ops 0 1 h; Store_custom_val h a;
      Store_data a callback; Caml_register_generational_global_root a;
      Ev_timer_start (lwt_unix_main_loop s) a ].
Proof.
  intros a h. unfold calls, lwt_libev_timer_init, lwt_unix_new, ev_timer_init,
    ev_init, caml_alloc_custom, custom_val_write, store_data,
    caml_register_generational_global_root, ev_timer_start, ev_start.
  repeat (mrun; try rewrite lookup_insert_eq).
  fold a. destruct (decide (a ∈ ev_active s)); [done|].
  by destruct (lwt_unix_main_loop s).
Qed.

Lemma handle_timer_inert a s :
  Forall (λ e, arms_timer e = false) (trace (handle_timer (λ _, mret tt) a s))
  ∧ watchers_kept s (result (handle_timer (λ _, mret tt) a s)).
Proof.
  unfold handle_timer, trace, result. rewrite bind_eval, LWT_UNIX_CHECK_eval.
  unfold load_data, caml_callback.
  destruct (decide _); mrun;
    destruct (c_heap s !! a) as [[ini [f|]]|]; simpl;
    repeat constructor.
Qed.

Lemma accept_timer_armed w t (μ : bool) :
  accept (timer_monitor w) false t = Some μ → μ = true →
  Exists (starts_timer w) t.
Proof.
  induction t as [|e t IH]; simpl; [congruence|].
  unfold timer_monitor at 1, starts_timer.
  destruct (call e) eqn:He; try (intros; apply Exists_cons_tl; by apply IH).
  - destruct cb; try (intros; apply Exists_cons_tl; by apply IH).
    destruct (decide _); [done|]. intros; apply Exists_cons_tl; by apply IH.
  - destruct (decide _) as [->|Hne].
    + intros _ _. apply Exists_cons_hd. eauto.
    + intros; apply Exists_cons_tl; by apply IH.
Qed.

Lemma one_firing_per_start_between w t1 e1 t2 e2 t3 :
  one_firing_per_start w (t1 ++ e1 :: t2 ++ e2 :: t3) →
  fires_timer w e1 → fires_timer w e2 →
  Exists (starts_timer w) t2.
Proof.
  unfold one_firing_per_start, fires_timer. intros [μ Hacc] He1 He2.
  rewrite accept_app in Hacc.
  destruct (accept (timer_monitor w) false t1) as [μ1|]; [|done].
  simpl in Hacc. unfold timer_monitor at 1 in Hacc. rewrite He1 in Hacc.
  rewrite decide_True in Hacc by done. destruct μ1; [|done].
  rewrite accept_app in Hacc.
  destruct (accept (timer_monitor w) false t2) as [μ2|] eqn:Ht2; [|done].
  simpl in Hacc. unfold timer_monitor at 1 in Hacc. rewrite He2 in Hacc.
  rewrite decide_True in Hacc by done. destruct μ2; [|done].
  by eapply accept_timer_armed.
Qed.

Lemma accept_arm_monitor (t : list event) (μ : unit) :
  is_Some (accept arm_monitor μ t) ↔ Forall (λ e, arms_timer e = false) t.
Proof.
  destruct μ. induction t as [|e t IH]; simpl.
  - split; [constructor | eauto].
  - unfold arm_monitor at 1. destruct (arms_timer e) eqn:He.
    + split; [by intros [? ?] | inversion 1; congruence].
    + rewrite IH. split; [by constructor | by inversion 1].
Qed.

Section no_timer_init_program.

Variable conv : Z → Z.
Variable code : closure → list ocaml_call.

Hypothesis code_no_timer_init : ∀ f, forallb no_timer_init (code f) = true.

Lemma arm_monitor_drive_call (μ : unit) z c :
  drive_call c = true → arm_monitor μ {| at_flag := z; call := c |} = Some μ.
Proof. destruct μ, c; done. Qed.

Lemma exec_arms_nothing (n : nat) (c : ocaml_call) s (μ : unit) :
  no_timer_init c = true →
  wp arm_monitor (exec conv code n c) (λ _ _ _, True) (λ _ _, True) s μ.
Proof.
  revert c s μ. induction n as [|n IH]; intros c s μ Hc; simpl.
  { apply wp_out_of_fuel. }
  assert (∀ f s μ, True →
            wp arm_monitor (run_calls (exec conv code n) (code f))
              (λ _ _ _, True) (λ _ _, True) s μ) as Hclosure.
  { intros f s' μ' _. apply wp_run_calls; [|done].
    intros c' s'' μ'' Hin _. apply IH.
    pose proof (code_no_timer_init f) as Hf.
    rewrite forallb_forall in Hf. by apply Hf, list_elem_of_In. }
  destruct c; simpl in Hc; try discriminate.
  - unfold_stubs; unfold_env; wp_go; done.
  - unfold_stubs; unfold_env; wp_go; done.
  - apply (lwt_libev_loop_inv arm_monitor (λ _ _, True)); try done.
    + apply arm_monitor_drive_call.
    + intros. unfold ev_feed. wp_go; done.
    + intros. by exists tt.
  - apply (lwt_libev_loop_no_wait_inv arm_monitor (λ _ _, True)); try done.
    + apply arm_monitor_drive_call.
    + intros. unfold ev_feed. wp_go; done.
    + intros. by exists tt.
  - unfold_stubs; unfold_env; wp_go; done.
  - unfold_stubs; unfold_env; wp_go; done.
  - unfold_stubs; unfold_env; wp_go; done.
  - unfold_stubs; unfold_env; wp_go; done.
  - unfold_stubs; unfold_env; wp_go; done.
  - unfold_stubs; unfold_env; wp_go; done.
  - unfold_stubs; unfold_env; wp_go; done.
  - apply wp_catch. by apply IH.
  - unfold_stubs; unfold_env; wp_go; done.
Qed.

End no_timer_init_program.

Lemma run_arms_nothing conv code n cs s :
  (∀ f, forallb no_timer_init (code f) = true) →
  forallb no_timer_init cs = true →
  Forall (λ e, arms_timer e = false) (trace (run conv code n cs s)).
Proof.
  intros Hcode Hcs. apply (accept_arm_monitor _ tt).
  destruct (wp_run_calls arm_monitor (exec conv code n) (λ _ _, True) cs)
    with (s := s) (μ := tt) as (μ' & Ht & _); [|done|by eauto].
  intros c s' μ' Hin _. apply exec_arms_nothing; [done|].
  rewrite forallb_forall in Hcs. by apply Hcs, list_elem_of_In.
Qed.

(** C5: [watch_timer] initialises the timer with the given delay and the
    repeat value [0], which libev reads as no repeat; the trampoline of a
    timer makes no call that arms a timer and leaves the watchers as they
    are; in every run of every program, starting from the initial state,
    each firing of the timer at an address uses up a start of that timer, so
    that between two firings there is a new [ev_timer_start]; and a program
    without a call of [watch_timer] starts no timer. *)
Theorem timers_are_one_shot (conv : Z → Z) (code : closure → list ocaml_call)
    (n : nat) (cs : list ocaml_call) (loops : list (option loop_ptr))
    (ready : list (list addr)) (w : addr) (delay : double)
    (callback : closure) (s : state) (a : addr)
    (t1 t2 t3 : list event) (e1 e2 : event) :
  (calls (lwt_libev_timer_init delay callback s)
   = [ Lwt_unix_new (fresh (dom (c_heap s)));
       Ev_timer_init (fresh (dom (c_heap s))) Handle_timer delay double_zero;
       Caml_alloc_custom watcher_ops 0 1 (fresh (dom (caml_heap s)));
       Store_custom_val (fresh (dom (caml_heap s))) (fresh (dom (c_heap s)));
       Store_data (fresh (dom (c_heap s))) callback;
       Caml_register_generational_global_root (fresh (dom (c_heap s)));
       Ev_timer_start (lwt_unix_main_loop s) (fresh (dom (c_heap s))) ]
   ∧ double_is_zero double_zero = true)
  ∧ (Forall (λ e, arms_timer e = false)
       (trace (handle_timer (λ _, mret tt) a s))
     ∧ watchers_kept s (result (handle_timer (λ _, mret tt) a s)))
  ∧ one_firing_per_start w
      (trace (run conv code n cs (initial_state loops ready)))
  ∧ (trace (run conv code n cs (initial_state loops ready))
     = t1 ++ e1 :: t2 ++ e2 :: t3 →
     fires_timer w e1 → fires_timer w e2 →
     Exists (starts_timer w) t2)
  ∧ ((∀ f, forallb no_timer_init (code f) = true) →
     forallb no_timer_init cs = true →
     Forall (λ e, arms_timer e = false) (trace (run conv code n cs s))).
Proof.
  split_and!.
  - apply lwt_libev_timer_init_calls.
  - done.
  - apply handle_timer_inert.
  - apply handle_timer_inert.
  - apply run_one_firing_per_start.
  - intros Ht He1 He2.
    apply (one_firing_per_start_between w t1 e1 t2 e2 t3); [|done..].
    rewrite <- Ht. apply run_one_firing_per_start.
  - apply run_arms_nothing.
Qed.

Lemma timers_are_one_shot_witness :
  let code (f : closure) := [Call_timer_stop 1%positive; Call_timer_init 5 0%N] in
  let cs := [Call_init; Call_timer_init 5 0%N; Call_loop; Call_loop] in
  let tr := trace (run (λ n, n) code 2 cs
                     (initial_state [Some 9%positive] [[1]; [1]]%positive)) in
  Exists (starts_timer 1) (take 14 (drop 11 tr))
  ∧ Forall (λ e, arms_timer e = false)
      (trace (run (λ n, n) (λ _, [Call_unloop]) 2
                [Call_init; Call_readable_init 3 0%N; Call_loop]
                (initial_state [Some 9%positive] [[1]]%positive))).
Proof.
  intros code cs tr. split.
  - refine (proj1 (proj2 (proj2 (proj2
              (timers_are_one_shot (λ n, n) code 2 cs [Some 9%positive]
                 [[1]; [1]]%positive 1%positive 5 0%N (initial_state [] [])
                 1%positive (take 10 tr) (take 14 (drop 11 tr)) (drop 26 tr)
                 {| at_flag := 1; call := Ev_invoke Handle_timer 1 |}
                 {| at_flag := 1; call := Ev_invoke Handle_timer 1 |}))))
              _ _ _).
    + vm_compute. reflexivity.
    + reflexivity.
    + reflexivity.
  - refine (proj2 (proj2 (proj2 (proj2
              (timers_are_one_shot (λ n, n) (λ _, [Call_unloop]) 2
                 [Call_init; Call_readable_init 3 0%N; Call_loop] [] []
                 1%positive 0 0%N
                 (initial_state [Some 9%positive] [[1]]%positive)
                 1%positive [] [] []
                 {| at_flag := 0; call := Free 1 |}
                 {| at_flag := 0; call := Free 1 |}))))
              _ _).
    + reflexivity.
    + reflexivity.
Defined.

(** The timer at [1] is reported ready in two rounds; it fires in the first
    one only. *)
Example timer_fires_once :
  calls (run (λ n, n) (λ _, []) 2
           [Call_init; Call_timer_init 5 0%N; Call_loop; Call_loop]
           (initial_state [Some 9%positive] [[1]; [1]]%positive))
  = [ Ev_default_loop EVFLAG_FORKCHECK;
      Lwt_unix_new 1; Ev_timer_init 1 Handle_timer 5 0;
      Caml_alloc_custom watcher_ops 0 1 1; Store_custom_val 1 1;
      Store_data 1 0%N; Caml_register_generational_global_root 1;
      Ev_timer_start (Some 9%positive) 1;
      Caml_enter_blocking_section; Ev_loop (Some 9%positive) EVLOOP_ONESHOT;
      Ev_invoke Handle_timer 1; Caml_leave_blocking_section;
      Caml_callback 0%N;
      Caml_enter_blocking_section; Ev_loop (Some 9%positive) EVLOOP_ONESHOT;
      Caml_leave_blocking_section ].
Proof. vm_compute. reflexivity. Qed.
